(** * Iteration-based training runner (lavis/runners/runner_iter.py)

    A shallow embedding of [RunnerIter]: its constructor, the derived
    properties [max_epoch], [cur_epoch] and [_progress], the training loop
    [train], [train_iters] and [save_checkpoint], together with the facts
    the specification states about them.

    Modelling choices.
    - Python integers are [Z].  The aggregate metric is read with
      [val_log["agg_metrics"]] and only compared with [>]; it is modelled as
      an integer-valued score.
    - A dictionary of statistics (a Python dict keyed by metric names) is
      a [gmap string Z].
    - The collaborators the runner delegates to (task, model, optimizer,
      data loaders, the evaluation routines of the base runner) are taken as
      parameters acting on an abstract world [W]; they are assumed to
      return.
    - The loop is written in a small state-and-exception monad.  The state
      holds the world, the two local variables [best_agg_metric] and
      [best_iters] of [train], and the trace of calls made so far.
    - [logging.info] and the wall-clock bookkeeping of [train] have no
      influence on control flow and are left out. *)

From Stdlib Require Import ZArith Lia Ascii.
From stdpp Require Import base option list strings gmap pretty sorting.

Local Open Scope Z_scope.

(** ** Python library functions used by the runner *)

(** Exceptions the modelled code can raise. *)
Inductive exn : Type :=
  | AssertionError (msg : string)
  | ValueError (msg : string).

Inductive outcome (A : Type) : Type :=
  | Ok (a : A)
  | Raise (e : exn).
Arguments Ok {A} a.
Arguments Raise {A} e.

(** [range(start, stop, step)]: CPython computes the length first and
    raises [ValueError] on a zero step. *)
Definition range_len (start stop step : Z) : Z :=
  if 0 <? step then
    if start <? stop then (stop - start - 1) / step + 1 else 0
  else
    if stop <? start then (start - stop - 1) / (- step) + 1 else 0.

Definition range (start stop step : Z) : outcome (list Z) :=
  if step =? 0 then Raise (ValueError "range() arg 3 must not be zero")
  else Ok ((λ i : nat, start + Z.of_nat i * step)
             <$> seq 0 (Z.to_nat (range_len start stop step))).

(** [s.endswith("/")] *)
Fixpoint endswith_slash (s : string) : bool :=
  match s with
  | EmptyString => false
  | String c EmptyString => bool_decide (c = "/"%char)
  | String _ s' => endswith_slash s'
  end.

(** [os.path.join(a, b)] of [posixpath], for two components. *)
Definition os_path_join (a b : string) : string :=
  if String.prefix "/" b then b
  else if bool_decide (a = "") || endswith_slash a then a +:+ b
  else a +:+ "/" +:+ b.

(** ** Data *)

(** A dictionary of statistics, as [train_iters] and [eval_epoch] return
    them. *)
Abbreviation stats_dict := (gmap string Z).

(** [self.config.run_cfg], restricted to its integer-valued entries. *)
Record Config : Type := { run_cfg : gmap string Z }.

(** The attributes [RunnerIter] inherits from [RunnerBase] (which is not
    part of this file's source): the configuration, the [evaluate_only]
    flag, the validation splits and the output directory. *)
Record RunnerBase : Type := {
  config : Config;
  evaluate_only : bool;
  valid_splits : list string;
  output_dir : string;
}.

Record RunnerIter : Type := {
  base :> RunnerBase;
  max_iters : Z;
  iters_per_inner_epoch : Z;
}.

(** [RunnerIter.__init__]: [int(run_cfg.get(key, -1))] followed by the two
    assertions. *)
Definition __init__ (b : RunnerBase) : outcome RunnerIter :=
  let max_iters := default (-1) (run_cfg (config b) !! "max_iters") in
  if negb (0 <? max_iters) then
    Raise (AssertionError "max_iters must be greater than 0.")
  else
    let iters_per_inner_epoch :=
      default (-1) (run_cfg (config b) !! "iters_per_inner_epoch") in
    if negb (0 <? iters_per_inner_epoch) then
      Raise (AssertionError "iters_per_inner_epoch must be greater than 0.")
    else
      Ok {| base := b; max_iters := max_iters;
            iters_per_inner_epoch := iters_per_inner_epoch |}.

(** [max_epoch]: [int(max_iters / iters_per_inner_epoch)], a true division
    truncated toward zero (exact as long as the quotient is exactly
    representable as a double). *)
Definition max_epoch (r : RunnerIter) : Z :=
  Z.quot (max_iters r) (iters_per_inner_epoch r).

Section Runner.

(** The world of the collaborators, and the types of the serialised model
    state, optimizer state and configuration. *)
Context {W MS OS CD : Type}.

(** What [torch.save] receives under each key of [save_obj]. *)
Inductive ckpt_value : Type :=
  | ModelState (m : MS)
  | OptimizerState (o : OS)
  | ConfigDict (c : CD)
  | ItersValue (i : Z).

(** The calls [train] makes, in order.  [EvInnerEpoch] marks the entry of a
    loop body and [EvSetBest] the assignment to [best_iters] and
    [best_agg_metric]; both are bookkeeping events, the other ones are
    calls to collaborators. *)
Inductive event : Type :=
  | EvInnerEpoch (start_iters : Z)
  | EvTrainIters (epoch start_iters iters_per_inner_epoch : Z)
  | EvLogStats (stats : stats_dict) (split_name : string)
  | EvEvalEpoch (split_name cur_epoch : string) (ret : option stats_dict)
  | EvSetBest (best_iters best_agg_metric : Z)
  | EvSaveCheckpoint (cur_iters : Z) (is_best : bool)
  | EvTorchSave (save_obj : gmap string ckpt_value) (save_to : string)
  | EvBarrier
  | EvEvaluate (cur_epoch : Z).

(** The collaborators.  [train_loader_epoch] is [None] when the loader has
    no [epoch] attribute; [is_main_process] is the predicate of
    [lavis.common.dist_utils], constant during the life of a process. *)
Record collaborators : Type := {
  model_train : W → W;
  task_train_iters : Z → Z → Z → W → stats_dict * W;
  eval_epoch : string → string → W → option stats_dict * W;
  evaluate : Z → W → W;
  train_loader_epoch : W → option Z;
  model_state_dict : W → MS;
  optimizer_state_dict : W → OS;
  config_to_dict : Config → CD;
  is_main_process : bool;
}.

Record state : Type := {
  world : W;
  best_agg_metric : Z;
  best_iters : Z;
  trace : list event;
}.

(** ** The monad *)

Definition M (A : Type) : Type := state → outcome A * state.

Definition ret {A} (a : A) : M A := λ s, (Ok a, s).

Definition bind {A B} (m : M A) (f : A → M B) : M B :=
  λ s, match m s with
       | (Ok a, s') => f a s'
       | (Raise e, s') => (Raise e, s')
       end.

Definition raise {A} (e : exn) : M A := λ s, (Raise e, s).

Definition lift {A} (o : outcome A) : M A := λ s, (o, s).

Definition emit (ev : event) : M unit :=
  λ s, (Ok tt, {| world := world s; best_agg_metric := best_agg_metric s;
                  best_iters := best_iters s; trace := trace s ++ [ev] |}).

Definition gets {A} (f : state → A) : M A := λ s, (Ok (f s), s).

Definition set_world (w : W) : M unit :=
  λ s, (Ok tt, {| world := w; best_agg_metric := best_agg_metric s;
                  best_iters := best_iters s; trace := trace s |}).

(** [best_iters, best_agg_metric = i, m] *)
Definition set_best (i m : Z) : M unit :=
  λ s, (Ok tt, {| world := world s; best_agg_metric := m;
                  best_iters := i; trace := trace s ++ [EvSetBest i m] |}).

Definition assert (b : bool) (msg : string) : M unit :=
  if b then ret tt else raise (AssertionError msg).

Definition when (b : bool) (m : M unit) : M unit :=
  if b then m else ret tt.

(** The monad is registered with stdpp's classes, which gives the
    notations [x ← m; f] and [m;; f]. *)
#[global] Instance M_ret : MRet M := @ret.
#[global] Instance M_bind : MBind M := λ A B f m, bind m f.

(** [for x in l: body(x)] *)
Fixpoint for_each {A} (l : list A) (body : A → M unit) : M unit :=
  match l with
  | [] => ret tt
  | x :: l' => body x;; for_each l' body
  end.

(** [for x in l: body(x)] where the body reports whether it ended in
    [break]. *)
Fixpoint for_break {A} (l : list A) (body : A → M bool) : M unit :=
  match l with
  | [] => ret tt
  | x :: l' => brk ← body x; if brk : bool then ret tt else for_break l' body
  end.

(** ** The runner *)

Variable c : collaborators.
Variable self : RunnerIter.

(** [cur_epoch]: [train_loader.epoch], or 0 on [AttributeError]. *)
Definition cur_epoch : M Z :=
  gets (λ s, default 0 (train_loader_epoch c (world s))).

(** [_progress]: ["{}_iters={}".format(self.cur_epoch, cur_iters)] *)
Definition _progress (cur_iters : Z) : M string :=
  e ← cur_epoch;
  ret (pretty e +:+ "_iters=" +:+ pretty cur_iters).

(** Modelled from the spec: the decorator [main_process] of
    [lavis.common.dist_utils] is not part of the source at hand; the
    specification says that checkpoint writing is restricted to a single
    designated process and that the other processes no-op. *)
Definition main_process (f : M unit) : M unit :=
  if is_main_process c then f else ret tt.

(** The body of [save_checkpoint], without its decorator. *)
Definition save_obj_of (w : W) (cur_iters : Z) : gmap string ckpt_value :=
  <["model" := ModelState (model_state_dict c w)]>
  (<["optimizer" := OptimizerState (optimizer_state_dict c w)]>
  (<["config" := ConfigDict (config_to_dict c (config self))]>
  (<["iters" := ItersValue cur_iters]> ∅))).

Definition checkpoint_label (cur_iters : Z) (is_best : bool) : string :=
  if is_best then "best" else pretty cur_iters.

Definition checkpoint_path (cur_iters : Z) (is_best : bool) : string :=
  os_path_join (output_dir self)
    ("checkpoint_" +:+ checkpoint_label cur_iters is_best +:+ ".pth").

Definition save_checkpoint_body (cur_iters : Z) (is_best : bool) : M unit :=
  save_obj ← gets (λ s, save_obj_of (world s) cur_iters);
  let save_to := checkpoint_path cur_iters is_best in
  emit (EvTorchSave save_obj save_to).

(** [save_checkpoint], as the rest of the class calls it. *)
Definition save_checkpoint (cur_iters : Z) (is_best : bool) : M unit :=
  emit (EvSaveCheckpoint cur_iters is_best);;
  main_process (save_checkpoint_body cur_iters is_best).

(** [train_iters]: put the model in training mode and delegate to the
    task. *)
Definition train_iters (epoch start_iters : Z) : M stats_dict :=
  w ← gets world;
  set_world (model_train c w);;
  emit (EvTrainIters epoch start_iters (iters_per_inner_epoch self));;
  w ← gets world;
  let '(stats, w') :=
    task_train_iters c epoch start_iters (iters_per_inner_epoch self) w in
  set_world w';;
  ret stats.

Definition log_stats (stats : stats_dict) (split_name : string) : M unit :=
  emit (EvLogStats stats split_name).

(** The body of [for split_name in self.valid_splits]. *)
Definition validate_split (end_iters : Z) (split_name : string) : M unit :=
  progress ← _progress end_iters;
  w ← gets world;
  let '(val_log, w') := eval_epoch c split_name progress w in
  set_world w';;
  emit (EvEvalEpoch split_name progress val_log);;
  match val_log with
  | Some val_log =>
      when (is_main_process c) (
        assert (bool_decide (is_Some (val_log !! "agg_metrics")))
          "No agg_metrics found in validation log.";;
        let agg_metrics := default 0 (val_log !! "agg_metrics") in
        best ← gets best_agg_metric;
        when ((best <? agg_metrics) && bool_decide (split_name = "val")) (
          set_best end_iters agg_metrics;;
          save_checkpoint end_iters true);;
        best_iters ← gets best_iters;
        log_stats (<["best_iters" := best_iters]> val_log) split_name)
  | None => ret tt
  end.

(** The four ways through the body of the validation loop, as a relation
    between the state before and the outcome and state after; the lemma
    [validate_split_cases] shows that [validate_split] always takes one of
    them. *)
Inductive validate_result (end_iters : Z) (split_name : string) (s : state)
    : outcome unit → state → Prop :=
  | validate_skip progress w' ret :
      eval_epoch c split_name progress (world s) = (ret, w') →
      ret = None ∨ is_main_process c = false →
      validate_result end_iters split_name s (Ok ())
        {| world := w'; best_agg_metric := best_agg_metric s;
           best_iters := best_iters s;
           trace := trace s ++ [EvEvalEpoch split_name progress ret] |}
  | validate_missing progress w' val_log :
      eval_epoch c split_name progress (world s) = (Some val_log, w') →
      is_main_process c = true →
      val_log !! "agg_metrics" = None →
      validate_result end_iters split_name s
        (Raise (AssertionError "No agg_metrics found in validation log."))
        {| world := w'; best_agg_metric := best_agg_metric s;
           best_iters := best_iters s;
           trace :=
             trace s ++ [EvEvalEpoch split_name progress (Some val_log)] |}
  | validate_best progress w' val_log agg_metrics :
      eval_epoch c split_name progress (world s) = (Some val_log, w') →
      is_main_process c = true →
      val_log !! "agg_metrics" = Some agg_metrics →
      best_agg_metric s < agg_metrics →
      split_name = "val" →
      validate_result end_iters split_name s (Ok ())
        {| world := w'; best_agg_metric := agg_metrics;
           best_iters := end_iters;
           trace :=
             trace s ++
             [EvEvalEpoch split_name progress (Some val_log);
              EvSetBest end_iters agg_metrics;
              EvSaveCheckpoint end_iters true;
              EvTorchSave (save_obj_of w' end_iters)
                (checkpoint_path end_iters true);
              EvLogStats (<["best_iters" := end_iters]> val_log)
                split_name] |}
  | validate_keep progress w' val_log agg_metrics :
      eval_epoch c split_name progress (world s) = (Some val_log, w') →
      is_main_process c = true →
      val_log !! "agg_metrics" = Some agg_metrics →
      ¬ (best_agg_metric s < agg_metrics ∧ split_name = "val") →
      validate_result end_iters split_name s (Ok ())
        {| world := w'; best_agg_metric := best_agg_metric s;
           best_iters := best_iters s;
           trace :=
             trace s ++
             [EvEvalEpoch split_name progress (Some val_log);
              EvLogStats (<["best_iters" := best_iters s]> val_log)
                split_name] |}.

(** The training phase of an inner epoch. *)
Definition training_phase (start_iters : Z) : M unit :=
  when (negb (evaluate_only self)) (
    e ← cur_epoch;
    train_stats ← train_iters e start_iters;
    log_stats train_stats "train").

(** The evaluation phase of an inner epoch. *)
Definition evaluation_phase (end_iters : Z) : M unit :=
  if (0 <? length (valid_splits self))%nat then
    for_each (valid_splits self) (validate_split end_iters)
  else
    when (negb (evaluate_only self)) (save_checkpoint end_iters false).

(** The body of [for start_iters in range(...)]; it returns [true] when it
    leaves the loop with [break]. *)
Definition inner_epoch (start_iters : Z) : M bool :=
  emit (EvInnerEpoch start_iters);;
  let end_iters := start_iters + iters_per_inner_epoch self in
  training_phase start_iters;;
  evaluation_phase end_iters;;
  if evaluate_only self then mret true
  else emit EvBarrier;; mret false.

(** The state in which [train] starts: [best_agg_metric = 0],
    [best_iters = 0], nothing called yet. *)
Definition initial_state (w : W) : state :=
  {| world := w; best_agg_metric := 0; best_iters := 0; trace := [] |}.

(** The testing phase that follows the loop. *)
Definition testing_phase : M unit :=
  e ← cur_epoch;
  w ← gets world;
  set_world (evaluate c e w);;
  emit (EvEvaluate e).

Definition train : M unit :=
  starts ← lift (range 0 (max_iters self) (iters_per_inner_epoch self));
  for_break starts inner_epoch;;
  testing_phase.

(** A run of [train] in the world [w]. *)
Definition run (w : W) : outcome unit * state := train (initial_state w).

(** ** Projections of a trace *)

Definition inner_epochs (tr : list event) : list Z :=
  omap (λ ev, match ev with EvInnerEpoch st => Some st | _ => None end) tr.

Definition barriers (tr : list event) : list unit :=
  omap (λ ev, match ev with EvBarrier => Some () | _ => None end) tr.

Definition save_calls (tr : list event) : list (Z * bool) :=
  omap (λ ev, match ev with
              | EvSaveCheckpoint i b => Some (i, b)
              | _ => None
              end) tr.

Definition saved_paths (tr : list event) : list string :=
  omap (λ ev, match ev with EvTorchSave _ p => Some p | _ => None end) tr.

(** The successive values assigned to [best_agg_metric]. *)
Definition best_values (tr : list event) : list Z :=
  omap (λ ev, match ev with EvSetBest _ m => Some m | _ => None end) tr.

(** The value [best_agg_metric] holds after the trace [tr]: the last value
    assigned, or the initial 0. *)
Definition current_best (tr : list event) : Z :=
  default 0 (last (best_values tr)).

(** The aggregate metrics read from the validation logs of the split
    ["val"]. *)
Definition val_metric (ev : event) : option Z :=
  match ev with
  | EvEvalEpoch split_name _ (Some val_log) =>
      if bool_decide (split_name = "val") then val_log !! "agg_metrics"
      else None
  | _ => None
  end.

Definition val_metrics (tr : list event) : list Z := omap val_metric tr.

(** The largest of 0 and the elements of a list. *)
Definition max0 (l : list Z) : Z := foldr Z.max 0 l.

(** A validation log without the aggregate metric was returned. *)
Definition lacks_agg_metrics (ev : event) : Prop :=
  match ev with
  | EvEvalEpoch _ _ (Some val_log) => val_log !! "agg_metrics" = None
  | _ => False
  end.

(** The events emitted outside the processing of a validation result. *)
Definition outer_event (ev : event) : Prop :=
  match ev with
  | EvEvalEpoch _ _ _ | EvSetBest _ _ | EvSaveCheckpoint _ true => False
  | _ => True
  end.

(** The events the body of an inner epoch emits between its entry and the
    barrier. *)
Definition body_event (ev : event) : Prop :=
  match ev with
  | EvInnerEpoch _ | EvBarrier | EvEvaluate _ => False
  | EvSaveCheckpoint _ false | EvTrainIters _ _ _ =>
      evaluate_only self = false
  | _ => True
  end.

(** ** Hoare triples over the monad *)

Definition hoare {A} (P : state → Prop) (m : M A)
    (Q : outcome A → state → Prop) : Prop :=
  ∀ s, P s → Q (m s).1 (m s).2.

(** [Jok] holds of the trace and of [best_agg_metric]. *)
Definition Iok (Jok : list event → Z → Prop) (s : state) : Prop :=
  Jok (trace s) (best_agg_metric s).

(** [Jok] on normal return, [Jraise] when an exception is raised. *)
Definition Jpost (Jok : list event → Z → Prop)
    (Jraise : exn → list event → Z → Prop) {A} (o : outcome A) (s : state)
    : Prop :=
  match o with
  | Ok _ => Iok Jok s
  | Raise e => Jraise e (trace s) (best_agg_metric s)
  end.

Definition keeps (Jok : list event → Z → Prop)
    (Jraise : exn → list event → Z → Prop) {A} (m : M A) : Prop :=
  hoare (Iok Jok) m (Jpost Jok Jraise).

(** Every event the computation emits satisfies [K]. *)
Definition emits_only (K : event → Prop) {A} (m : M A) : Prop :=
  ∀ s, ∃ evs, trace (m s).2 = trace s ++ evs ∧ Forall K evs.

(** ** Invariants of [train] *)

Definition not_set_best (ev : event) : Prop :=
  match ev with EvSetBest _ _ => False | _ => True end.

(** The variable holds the last value assigned, and every assignment
    follows the evaluation of the split ["val"] and exceeds the value held
    before. *)
Definition Jinc (tr : list event) (b : Z) : Prop :=
  b = current_best tr ∧
  ∀ pre i m post, tr = pre ++ EvSetBest i m :: post →
    current_best pre < m ∧
    ∃ pre' progress ret, pre = pre' ++ [EvEvalEpoch "val" progress ret].

(** Events that neither save a best checkpoint nor read an aggregate
    metric on the split ["val"]. *)
Definition neutral (ev : event) : Prop :=
  match ev with
  | EvSaveCheckpoint _ true => False
  | _ => val_metric ev = None
  end.

(** On the main process: the variable holds the largest of 0 and the
    metrics read so far on the split ["val"]; a best checkpoint is only
    saved right after a metric exceeding that value was read; and such a
    metric is always followed by the save. *)
Definition Jbest (tr : list event) (b : Z) : Prop :=
  b = max0 (val_metrics tr) ∧
  (∀ pre e post, tr = pre ++ EvSaveCheckpoint e true :: post →
     ∃ pre' progress val_log m,
       pre = pre' ++ [EvEvalEpoch "val" progress (Some val_log);
                      EvSetBest e m] ∧
       val_log !! "agg_metrics" = Some m ∧ max0 (val_metrics pre') < m) ∧
  (∀ pre progress val_log m post,
     tr = pre ++ EvEvalEpoch "val" progress (Some val_log) :: post →
     val_log !! "agg_metrics" = Some m →
     max0 (val_metrics pre) < m →
     ∃ e post', post = EvSetBest e m :: EvSaveCheckpoint e true :: post').

(** No validation log without the aggregate metric was returned so far. *)
Definition Jagg (tr : list event) (b : Z) : Prop :=
  Forall (λ ev, ¬ lacks_agg_metrics ev) tr.

(** Either that, or the last call returned such a log and the assertion
    failed. *)
Definition Jagg_raise (e : exn) (tr : list event) (b : Z) : Prop :=
  Jagg tr b ∨
  ∃ pre ev, tr = pre ++ [ev] ∧ lacks_agg_metrics ev ∧ Jagg pre b ∧
    e = AssertionError "No agg_metrics found in validation log.".

(** No assignment to the best metric and no best checkpoint so far. *)
Definition Jnobest (tr : list event) (b : Z) : Prop :=
  Forall (λ ev, match ev with
                | EvSetBest _ _ | EvSaveCheckpoint _ true => False
                | _ => True
                end) tr.

(** Events that cannot occur in evaluate-only mode. *)
Definition no_training_event (ev : event) : Prop :=
  match ev with
  | EvSaveCheckpoint _ false | EvTrainIters _ _ _ | EvBarrier => False
  | _ => True
  end.

(** ** The schedule of a run and the origin of its events *)

(** The calls whose arguments do not depend on what the collaborators
    return. *)
Inductive call : Type :=
  | CallInnerEpoch (start_iters : Z)
  | CallTrainIters (start_iters iters_per_inner_epoch : Z)
  | CallEvalEpoch (split_name : string)
  | CallBarrier
  | CallEvaluate.

Definition call_of (ev : event) : option call :=
  match ev with
  | EvInnerEpoch st => Some (CallInnerEpoch st)
  | EvTrainIters _ st it => Some (CallTrainIters st it)
  | EvEvalEpoch split_name _ _ => Some (CallEvalEpoch split_name)
  | EvBarrier => Some CallBarrier
  | EvEvaluate _ => Some CallEvaluate
  | _ => None
  end.

Definition schedule (tr : list event) : list call := omap call_of tr.

(** The calls of one inner epoch that starts at [start_iters]. *)
Definition epoch_schedule (start_iters : Z) : list call :=
  CallInnerEpoch start_iters
  :: (if evaluate_only self then []
      else [CallTrainIters start_iters (iters_per_inner_epoch self)])
  ++ (CallEvalEpoch <$> valid_splits self)
  ++ (if evaluate_only self then [] else [CallBarrier]).

Definition evaluate_calls (tr : list event) : list Z :=
  omap (λ ev, match ev with EvEvaluate e => Some e | _ => None end) tr.

(** The elements of [range(0, max_iters, iters_per_inner_epoch)], none when
    the range raises. *)
Definition epoch_starts : list Z :=
  match range 0 (max_iters self) (iters_per_inner_epoch self) with
  | Ok starts => starts
  | Raise _ => []
  end.

(** What [cur_epoch] returns in the world [w]. *)
Definition epoch_in (w : W) : Z := default 0 (train_loader_epoch c w).

(** The string [_progress] builds in the world [w]. *)
Definition progress_label (w : W) (cur_iters : Z) : string :=
  pretty (epoch_in w) +:+ "_iters=" +:+ pretty cur_iters.

(** The events of the training phase of the inner epoch that starts at
    [start_iters]. *)
Definition training_event (start_iters : Z) (ev : event) : Prop :=
  match ev with
  | EvTrainIters e st it =>
      evaluate_only self = false ∧ st = start_iters ∧
      it = iters_per_inner_epoch self ∧ ∃ w, e = epoch_in w
  | EvLogStats _ split_name =>
      evaluate_only self = false ∧ split_name = "train"
  | _ => False
  end.

(** The events of the evaluation phase of the inner epoch that ends at
    [end_iters]. *)
Definition validation_event (end_iters : Z) (ev : event) : Prop :=
  match ev with
  | EvEvalEpoch split_name progress _ =>
      split_name ∈ valid_splits self ∧
      ∃ w, progress = progress_label w end_iters
  | EvSetBest i _ => is_main_process c = true ∧ i = end_iters
  | EvSaveCheckpoint i is_best =>
      i = end_iters ∧
      if is_best then is_main_process c = true ∧ valid_splits self ≠ []
      else valid_splits self = [] ∧ evaluate_only self = false
  | EvTorchSave save_obj save_to =>
      is_main_process c = true ∧
      ∃ w, save_obj = save_obj_of w end_iters ∧
           save_to = checkpoint_path end_iters
                       (bool_decide (valid_splits self ≠ []))
  | EvLogStats stats split_name =>
      is_main_process c = true ∧ split_name ∈ valid_splits self ∧
      is_Some (stats !! "best_iters")
  | _ => False
  end.

Definition epoch_event (start_iters : Z) (ev : event) : Prop :=
  ev = EvInnerEpoch start_iters ∨
  training_event start_iters ev ∨
  validation_event (start_iters + iters_per_inner_epoch self) ev ∨
  (ev = EvBarrier ∧ evaluate_only self = false).

Definition run_event (ev : event) : Prop :=
  (∃ start_iters, start_iters ∈ epoch_starts ∧ epoch_event start_iters ev) ∨
  ∃ w, ev = EvEvaluate (epoch_in w).

(** The successive values assigned to [best_iters, best_agg_metric]. *)
Definition best_pairs (tr : list event) : list (Z * Z) :=
  omap (λ ev, match ev with EvSetBest i m => Some (i, m) | _ => None end) tr.

(** The values the two variables hold after the trace [tr]. *)
Definition current_best_pair (tr : list event) : Z * Z :=
  default (0, 0) (last (best_pairs tr)).

(** The computation keeps the property [I] of the state, whether it returns
    or raises. *)
Definition preserves (I : state → Prop) {A} (m : M A) : Prop :=
  ∀ s, I s → I (m s).2.

(** Every assignment of the best record is directly followed by the call
    that saves the best checkpoint under the same iteration count. *)
Definition Jsaved (tr : list event) (b : Z) : Prop :=
  ∀ pre i m post, tr = pre ++ EvSetBest i m :: post →
    ∃ post', post = EvSaveCheckpoint i true :: post'.

(** A string without the character [_]. *)
Fixpoint no_underscore (s : string) : Prop :=
  match s with
  | EmptyString => True
  | String a s' => a ≠ "_"%char ∧ no_underscore s'
  end.

End Runner.

(** ** Distributed runs

    A distributed job is a list of processes, each with its own
    collaborators and world, that all run [train] on the same
    configuration; the files of the job are the files its processes
    write. *)
Definition job_saved_paths {W MS OS CD : Type} (self : RunnerIter)
    (procs : list (@collaborators W MS OS CD * W)) : list string :=
  concat ((λ p, saved_paths (trace (run p.1 self p.2).2)) <$> procs).

Definition main_processes {W MS OS CD : Type}
    (procs : list (@collaborators W MS OS CD * W))
    : list (@collaborators W MS OS CD * W) :=
  filter (λ p, is_main_process p.1 = true) procs.

(** ** Pipeline data loaders *)

Section Pipeline.

(** The type of a dataset. *)
Context {D : Type}.

(** A call [DataLoader(dataset, batch_size=..., num_workers=...,
    pin_memory=...)] of [torch.utils.data], as the record of its
    arguments. *)
Record DataLoader : Type := {
  dataset : D;
  batch_size : Z;
  num_workers : Z;
  pin_memory : bool;
}.

(** [create_pipeline_loader]: [zip] stops at the shortest of its three
    arguments. *)
Fixpoint create_pipeline_loader (datasets : list D)
    (batch_sizes nums_workers : list Z) : list DataLoader :=
  match datasets, batch_sizes, nums_workers with
  | d :: datasets', b :: batch_sizes', n :: nums_workers' =>
      {| dataset := d; batch_size := b; num_workers := n;
         pin_memory := true |}
      :: create_pipeline_loader datasets' batch_sizes' nums_workers'
  | _, _, _ => []
  end.

(** The three values the property [dataloaders] reads from [run_cfg] by
    attribute access. *)
Record LoaderConfig : Type := {
  batch_size_train : Z;
  batch_size_eval : Z;
  cfg_num_workers : Z;
}.

(** [sorted(self.datasets.keys())] *)
Definition sorted_split_names (datasets : gmap string D) : list string :=
  merge_sort String.le (map_to_list datasets).*1.

(** The dictionary built when [self._dataloaders is None], in insertion
    order.  [self.datasets[split]] cannot fail, since [split] is a key. *)
Definition build_dataloaders (cfg : LoaderConfig) (datasets : gmap string D)
    : list (string * DataLoader) :=
  let split_names := sorted_split_names datasets in
  let datasets' := omap (λ split, datasets !! split) split_names in
  let dataloaders :=
    create_pipeline_loader datasets'
      ((λ split : string,
          if bool_decide (split = "train") then batch_size_train cfg
          else batch_size_eval cfg) <$> split_names)
      (replicate (length datasets') (cfg_num_workers cfg)) in
  zip split_names dataloaders.

(** The attributes the property reads and writes: [self.datasets] and the
    cache [self._dataloaders]. *)
Record LoaderState : Type := {
  datasets : gmap string D;
  _dataloaders : option (list (string * DataLoader));
}.

(** The property [dataloaders].  [use_datapipe] is
    [run_cfg.get("use_datapipe", False)], a boolean stored as 0 or 1; the
    result is [inl] of the pipeline dictionary, or [inr] of what the
    property of the base class returns, which is a parameter. *)
Definition dataloaders {B : Type} (super_dataloaders : B) (config : Config)
    (cfg : LoaderConfig) (st : LoaderState)
    : (list (string * DataLoader) + B) * LoaderState :=
  let use_datapipe := default 0 (run_cfg config !! "use_datapipe") in
  if negb (use_datapipe =? 0) then
    match _dataloaders st with
    | None =>
        let built := build_dataloaders cfg (datasets st) in
        (inl built, {| datasets := datasets st; _dataloaders := Some built |})
    | Some cached => (inl cached, st)
    end
  else (inr super_dataloaders, st).

End Pipeline.

(** ** Concrete collaborators and runners, for the examples

    A world that only counts the training and evaluation calls made so
    far; [eval_epoch] answers from a table indexed by that count. *)

Definition table_collaborators (logs : nat → option stats_dict)
    (main : bool)
    : @collaborators nat unit unit unit :=
  {| model_train := λ w, w;
     task_train_iters := λ _ _ _ w, (∅, w);
     eval_epoch := λ _ _ w, (logs w, S w);
     evaluate := λ _ w, w;
     train_loader_epoch := λ _, None;
     model_state_dict := λ _, ();
     optimizer_state_dict := λ _, ();
     config_to_dict := λ _, ();
     is_main_process := main |}.

Definition example_base (evaluate_only : bool) (valid_splits : list string)
    : RunnerBase :=
  {| config := {| run_cfg := ∅ |};
     evaluate_only := evaluate_only;
     valid_splits := valid_splits;
     output_dir := "out" |}.

Definition example_runner (evaluate_only : bool)
    (valid_splits : list string) (max_iters iters_per_inner_epoch : Z)
    : RunnerIter :=
  {| base := example_base evaluate_only valid_splits;
     max_iters := max_iters;
     iters_per_inner_epoch := iters_per_inner_epoch |}.

(** A validation log with the given aggregate metric. *)
Definition log_with (m : Z) : stats_dict := {["agg_metrics" := m]}.

(** A validation log without the aggregate metric. *)
Definition log_without : stats_dict := {["loss" := 1]}.

(** * Proofs *)

(** ** Lists *)

Lemma app_eq_split {A} (l1 l2 pre post : list A) (x : A) :
  l1 ++ l2 = pre ++ x :: post →
  (∃ post1, l1 = pre ++ x :: post1 ∧ post = post1 ++ l2) ∨
  (∃ pre2, pre = l1 ++ pre2 ∧ l2 = pre2 ++ x :: post).
Proof.
  revert pre. induction l1 as [|a l1 IH]; intros pre Heq; simpl in *.
  - right. by exists pre.
  - destruct pre as [|b pre]; simpl in *.
    + injection Heq as -> <-. left. by exists l1.
    + injection Heq as -> Heq. destruct (IH _ Heq) as [[p1 [-> ->]]|[p2 [-> ->]]].
      * left. by exists p1.
      * right. by exists p2.
Qed.

Lemma snoc_eq_split {A} (l pre post : list A) (y x : A) :
  l ++ [y] = pre ++ x :: post →
  (∃ post1, l = pre ++ x :: post1 ∧ post = post1 ++ [y]) ∨
  (pre = l ∧ x = y ∧ post = []).
Proof.
  intros Heq. destruct (app_eq_split _ _ _ _ _ Heq) as [?|[pre2 [-> H2]]].
  - by left.
  - right. destruct pre2 as [|? [|? ?]]; simplify_eq/=.
    by rewrite app_nil_r.
Qed.

Lemma max0_app (l1 l2 : list Z) :
  max0 (l1 ++ l2) = Z.max (max0 l1) (max0 l2).
Proof.
  unfold max0. induction l1 as [|x l1 IH]; simpl.
  - assert (0 ≤ foldr Z.max 0 l2); [|lia].
    induction l2; simpl; lia.
  - rewrite IH. lia.
Qed.

Lemma max0_lt (l : list Z) (m : Z) :
  max0 l < m ↔ 0 < m ∧ Forall (λ x, x < m) l.
Proof.
  unfold max0. induction l as [|x l IH]; simpl.
  - split; [intros; split; [done|constructor]|by intros [? _]].
  - rewrite Forall_cons. split.
    + intros H. assert (foldr Z.max 0 l < m) as Hl by lia.
      apply IH in Hl as [? ?]. repeat split; [done|lia|done].
    + intros (H0 & Hx & Hl). assert (foldr Z.max 0 l < m) by (apply IH; done).
      lia.
Qed.

Section Proofs.

Context {W MS OS CD : Type}.
Variable c : @collaborators W MS OS CD.
Variable self : RunnerIter.

Implicit Types (s : @state W MS OS CD) (tr : list (@event MS OS CD)).
Implicit Types (ev : @event MS OS CD).

#[local] Abbreviation M := (@M W MS OS CD).

(** ** Rules of the Hoare triples *)

Lemma hoare_bind {A B} (P : state → Prop) (R : A → state → Prop)
    (Q : outcome B → state → Prop) (m : M A) (f : A → M B) :
  hoare P m (λ o s, match o with Ok a => R a s | Raise e => Q (Raise e) s end) →
  (∀ a, hoare (R a) (f a) Q) →
  hoare P (m ≫= f) Q.
Proof.
  intros Hm Hf s HP. specialize (Hm s HP).
  unfold mbind, M_bind, bind. destruct (m s) as [[a|e] s']; simpl in *.
  - by apply Hf.
  - done.
Qed.

Lemma hoare_for_each {A} (I : state → Prop) (Q : outcome unit → state → Prop)
    (l : list A) (body : A → M unit) :
  (∀ x, hoare I (body x)
          (λ o s, match o with Ok _ => I s | Raise e => Q (Raise e) s end)) →
  (∀ s, I s → Q (Ok ()) s) →
  hoare I (for_each l body) Q.
Proof.
  intros Hbody Hend. induction l as [|x l IH]; simpl.
  - intros s HI. by apply Hend.
  - eapply hoare_bind; [apply Hbody|]. intros []. apply IH.
Qed.

Lemma hoare_for_break {A} (I : state → Prop) (Q : outcome unit → state → Prop)
    (l : list A) (body : A → M bool) :
  (∀ x, hoare I (body x)
          (λ o s, match o with Ok _ => I s | Raise e => Q (Raise e) s end)) →
  (∀ s, I s → Q (Ok ()) s) →
  hoare I (for_break l body) Q.
Proof.
  intros Hbody Hend. induction l as [|x l IH]; simpl.
  - intros s HI. by apply Hend.
  - eapply hoare_bind; [apply Hbody|]. intros [|].
    + intros s HI. by apply Hend.
    + apply IH.
Qed.

(** ** The body of the validation loop *)

Lemma validate_split_cases end_iters split_name s :
  validate_result c self end_iters split_name s
    (validate_split c self end_iters split_name s).1
    (validate_split c self end_iters split_name s).2.
Proof.
  unfold validate_split, _progress, cur_epoch, gets, set_world, emit,
    when, assert, set_best, save_checkpoint, main_process,
    save_checkpoint_body, log_stats, mbind, M_bind, bind, mret, M_ret, ret,
    raise.
  simpl.
  destruct (eval_epoch c split_name _ (world s)) as [[val_log|] w'] eqn:Heval;
    simpl; [|by eapply validate_skip; eauto].
  destruct (is_main_process c) eqn:Hmain; simpl;
    [|by eapply validate_skip; eauto].
  destruct (val_log !! "agg_metrics") as [m|] eqn:Hagg; simpl.
  2: by eapply validate_missing.
  destruct (best_agg_metric s <? m) eqn:Hlt; simpl.
  - apply Z.ltb_lt in Hlt. case_bool_decide as Hval; unfold emit; simpl.
    + rewrite <- !app_assoc. simpl. by eapply validate_best.
    + rewrite <- !app_assoc. simpl. eapply validate_keep; eauto. tauto.
  - apply Z.ltb_ge in Hlt. unfold emit; simpl.
    rewrite <- !app_assoc. simpl. eapply validate_keep; eauto. lia.
Qed.

(** ** Invariants of the trace

    A property [Jok] of the trace and of [best_agg_metric] that is kept by
    every event emitted outside the processing of a validation result and
    by the processing of a validation result holds throughout [train];
    [Jraise] is what holds when an exception leaves [train]. *)

Section TraceInvariant.

Variable Jok : list (@event MS OS CD) → Z → Prop.
Variable Jraise : exn → list (@event MS OS CD) → Z → Prop.

Hypothesis quiet_outer :
  ∀ ev tr b, outer_event ev → Jok tr b → Jok (tr ++ [ev]) b.
Hypothesis keeps_validate :
  ∀ end_iters split_name,
    keeps Jok Jraise (validate_split c self end_iters split_name).
Hypothesis range_raise :
  ∀ msg tr b, Jok tr b → Jraise (ValueError msg) tr b.

Lemma keeps_ret {A} (a : A) : keeps Jok Jraise (mret a : M A).
Proof. by intros s Hs. Qed.

Lemma keeps_bind {A B} (m : M A) (f : A → M B) :
  keeps Jok Jraise m → (∀ a, keeps Jok Jraise (f a)) →
  keeps Jok Jraise (m ≫= f).
Proof.
  intros Hm Hf. eapply hoare_bind; [|apply Hf].
  intros s Hs. specialize (Hm s Hs). by destruct (m s) as [[?|?] ?].
Qed.

Lemma keeps_gets {A} (f : @state W MS OS CD → A) :
  keeps Jok Jraise (gets f).
Proof. by intros s Hs. Qed.

Lemma keeps_set_world (w : W) : keeps Jok Jraise (set_world w).
Proof. by intros s Hs. Qed.

Lemma keeps_emit ev :
  outer_event ev → keeps Jok Jraise (emit ev : M unit).
Proof. intros Hev s Hs. by apply quiet_outer. Qed.

Lemma keeps_when (b : bool) (m : M unit) :
  keeps Jok Jraise m → keeps Jok Jraise (when b m).
Proof. intros Hm. destruct b; [done|apply (keeps_ret ())]. Qed.

Lemma keeps_for_each {A} (l : list A) (body : A → M unit) :
  (∀ x, keeps Jok Jraise (body x)) → keeps Jok Jraise (for_each l body).
Proof.
  intros Hbody. apply hoare_for_each; [|done].
  intros x s Hs. specialize (Hbody x s Hs). by destruct (body x s) as [[?|?] ?].
Qed.

Lemma keeps_for_break {A} (l : list A) (body : A → M bool) :
  (∀ x, keeps Jok Jraise (body x)) → keeps Jok Jraise (for_break l body).
Proof.
  intros Hbody. apply hoare_for_break; [|done].
  intros x s Hs. specialize (Hbody x s Hs). by destruct (body x s) as [[?|?] ?].
Qed.

Lemma keeps_cur_epoch : keeps Jok Jraise (cur_epoch c).
Proof. apply keeps_gets. Qed.

Lemma keeps_train_iters epoch start_iters :
  keeps Jok Jraise (train_iters c self epoch start_iters).
Proof.
  unfold train_iters.
  apply keeps_bind; [apply keeps_gets|intros w].
  apply keeps_bind; [apply keeps_set_world|intros _].
  apply keeps_bind; [by apply keeps_emit|intros _].
  apply keeps_bind; [apply keeps_gets|intros w'].
  destruct (task_train_iters _ _ _ _ _) as [stats w''].
  apply keeps_bind; [apply keeps_set_world|intros _]. apply keeps_ret.
Qed.

Lemma keeps_save_checkpoint_false cur_iters :
  keeps Jok Jraise (save_checkpoint c self cur_iters false).
Proof.
  unfold save_checkpoint, main_process, save_checkpoint_body.
  apply keeps_bind; [by apply keeps_emit|intros _].
  destruct (is_main_process c); [|apply keeps_ret].
  apply keeps_bind; [apply keeps_gets|intros obj]. by apply keeps_emit.
Qed.

Lemma keeps_inner_epoch start_iters :
  keeps Jok Jraise (inner_epoch c self start_iters).
Proof.
  unfold inner_epoch, training_phase, evaluation_phase.
  apply keeps_bind; [by apply keeps_emit|intros _].
  apply keeps_bind; [|intros _; apply keeps_bind; [|intros _]].
  - apply keeps_when.
    apply keeps_bind; [apply keeps_cur_epoch|intros e].
    apply keeps_bind; [apply keeps_train_iters|intros stats].
    by apply keeps_emit.
  - destruct (0 <? _)%nat.
    + apply keeps_for_each. intros x. apply keeps_validate.
    + apply keeps_when, keeps_save_checkpoint_false.
  - destruct (evaluate_only self); [apply keeps_ret|].
    apply keeps_bind; [by apply keeps_emit|intros _]. apply keeps_ret.
Qed.

Theorem train_invariant (w : W) :
  Jok [] 0 → Jpost Jok Jraise (run c self w).1 (run c self w).2.
Proof.
  intros Hinit. unfold run.
  assert (keeps Jok Jraise (train c self)) as Hm; [|by apply Hm].
  unfold train, testing_phase. apply keeps_bind.
  - intros s Hs. unfold lift. simpl. unfold range.
    destruct (_ =? 0); simpl; [by apply range_raise|done].
  - intros starts.
    apply keeps_bind; [apply keeps_for_break, keeps_inner_epoch|intros _].
    apply keeps_bind; [apply keeps_cur_epoch|intros e].
    apply keeps_bind; [apply keeps_gets|intros w'].
    apply keeps_bind; [apply keeps_set_world|intros _].
    by apply keeps_emit.
Qed.

End TraceInvariant.

(** ** The tracked best metric only grows *)

Lemma best_values_quiet tr blk :
  Forall not_set_best blk → best_values (tr ++ blk) = best_values tr.
Proof.
  intros Hblk. unfold best_values. rewrite omap_app.
  rewrite <- (app_nil_r (omap _ tr)) at 2. f_equal.
  induction Hblk as [|ev blk Hev _ IH]; [done|]. simpl.
  by destruct ev.
Qed.

Lemma current_best_quiet tr blk :
  Forall not_set_best blk → current_best (tr ++ blk) = current_best tr.
Proof. intros Hblk. unfold current_best. by rewrite best_values_quiet. Qed.

Lemma current_best_set tr i m : current_best (tr ++ [EvSetBest i m]) = m.
Proof.
  unfold current_best, best_values. rewrite omap_app. simpl.
  by rewrite last_snoc.
Qed.

Lemma Jinc_quiet ev tr b : not_set_best ev → Jinc tr b → Jinc (tr ++ [ev]) b.
Proof.
  intros Hev [Hb Hup]. split.
  - rewrite current_best_quiet; [done|by constructor].
  - intros pre i m post Heq.
    apply snoc_eq_split in Heq as [[post1 [-> ->]]|(_ & <- & _)].
    + by eapply Hup.
    + done.
Qed.

Lemma Jinc_quiet_app blk tr b :
  Forall not_set_best blk → Jinc tr b → Jinc (tr ++ blk) b.
Proof.
  intros Hblk. revert tr. induction Hblk as [|ev blk Hev _ IH]; intros tr HJ.
  - by rewrite app_nil_r.
  - rewrite cons_middle, app_assoc. by apply IH, Jinc_quiet.
Qed.

Lemma Jinc_set tr b progress ret i m :
  Jinc tr b → b < m →
  Jinc (tr ++ [EvEvalEpoch "val" progress ret; EvSetBest i m]) m.
Proof.
  intros HJ Hlt.
  apply (Jinc_quiet (EvEvalEpoch "val" progress ret)) in HJ as [Hb Hup];
    [|done].
  change (tr ++ [EvEvalEpoch "val" progress ret; EvSetBest i m])
    with (tr ++ [EvEvalEpoch "val" progress ret] ++ [EvSetBest i m]).
  rewrite app_assoc. split.
  - by rewrite current_best_set.
  - intros pre i' m' post Heq.
    apply snoc_eq_split in Heq as [[post1 [Heq ->]]|(-> & [= -> ->] & _)].
    + by eapply Hup.
    + split; [by rewrite <- Hb|]. by eexists _, _, _.
Qed.

Lemma Jinc_validate end_iters split_name :
  keeps Jinc (λ _, Jinc) (validate_split c self end_iters split_name).
Proof.
  intros s Hs. unfold Iok in Hs.
  destruct (validate_split_cases end_iters split_name s)
    as [p w' r Hev Hr|p w' l Hev Hmain Hagg|p w' l m Hev Hmain Hagg Hlt ->
       |p w' l m Hev Hmain Hagg Hn]; unfold Jpost, Iok; simpl.
  - by apply Jinc_quiet.
  - by apply Jinc_quiet.
  - match goal with |- Jinc (_ ++ ?e1 :: ?e2 :: ?rest) _ =>
      change (Jinc (trace s ++ [e1; e2] ++ rest) m) end.
    rewrite app_assoc. apply Jinc_quiet_app; [by repeat constructor|].
    by eapply Jinc_set.
  - apply Jinc_quiet_app; [by repeat constructor|done].
Qed.

Lemma Jinc_run (w : W) :
  Jinc (trace (run c self w).2) (best_agg_metric (run c self w).2).
Proof.
  pose proof (train_invariant Jinc (λ _, Jinc)) as H.
  assert (Jpost Jinc (λ _, Jinc) (run c self w).1 (run c self w).2) as Hpost.
  { apply H.
    - intros ev tr b Hev. apply Jinc_quiet. by destruct ev.
    - apply Jinc_validate.
    - done.
    - split; [done|]. intros [|??] ???; by intros [=]. }
  by destruct (run c self w).1.
Qed.

Lemma increasing_monotone tr :
  (∀ pre i m post, tr = pre ++ EvSetBest i m :: post → current_best pre < m) →
  ∀ pre mid post, tr = pre ++ mid ++ post →
    current_best pre ≤ current_best (pre ++ mid).
Proof.
  intros Hup pre mid. induction mid as [|x mid IH] using rev_ind;
    intros post Heq.
  - by rewrite app_nil_r.
  - rewrite <- app_assoc in Heq. specialize (IH _ Heq).
    rewrite app_assoc.
    destruct x; try (rewrite current_best_quiet; [done|by repeat constructor]).
    rewrite current_best_set.
    simpl in Heq. rewrite app_assoc in Heq. apply Hup in Heq. lia.
Qed.

(** C6. Throughout a call to [train] the tracked best aggregate metric
    never decreases: the variable always holds the last value assigned to it
    (initially 0), every assignment follows the evaluation of the split
    ["val"] and replaces the value held by a strictly greater one, and the
    value held at any point of the run is at most the value held at any
    later point. *)
Theorem best_agg_metric_monotone (w : W) :
  let s' := (run c self w).2 in
  best_agg_metric s' = current_best (trace s') ∧
  (∀ pre i m post, trace s' = pre ++ EvSetBest i m :: post →
     current_best pre < m ∧
     ∃ pre' progress ret, pre = pre' ++ [EvEvalEpoch "val" progress ret]) ∧
  (∀ pre mid post, trace s' = pre ++ mid ++ post →
     current_best pre ≤ current_best (pre ++ mid)).
Proof.
  destruct (Jinc_run w) as [Hb Hup]. repeat split.
  - done.
  - by eapply Hup.
  - by eapply Hup.
  - apply increasing_monotone. intros pre i m post Heq. by eapply Hup.
Qed.

(** ** When the best checkpoint is saved *)

Lemma max0_nonneg (l : list Z) : 0 ≤ max0 l.
Proof. unfold max0. induction l; simpl; lia. Qed.

Lemma val_metrics_silent tr blk :
  Forall (λ ev, val_metric ev = None) blk →
  val_metrics (tr ++ blk) = val_metrics tr.
Proof.
  intros Hblk. unfold val_metrics. rewrite omap_app.
  rewrite <- (app_nil_r (omap _ tr)) at 2. f_equal.
  induction Hblk as [|ev blk Hev _ IH]; [done|]. simpl. by rewrite Hev.
Qed.

Lemma neutral_silent ev : neutral ev → val_metric ev = None.
Proof. by destruct ev as [| | | | |?[]| | |]. Qed.

Lemma val_metrics_val tr progress val_log m :
  val_log !! "agg_metrics" = Some m →
  val_metrics (tr ++ [EvEvalEpoch "val" progress (Some val_log)])
  = val_metrics tr ++ [m].
Proof. intros Hagg. unfold val_metrics. rewrite omap_app. simpl. by rewrite Hagg. Qed.

Lemma Jbest_neutral ev tr b : neutral ev → Jbest tr b → Jbest (tr ++ [ev]) b.
Proof.
  intros Hev (Hb & Hsave & Hval). repeat split.
  - rewrite val_metrics_silent; [done|].
    constructor; [by apply neutral_silent|constructor].
  - intros pre e post Heq.
    apply snoc_eq_split in Heq as [[post1 [-> ->]]|(_ & <- & _)].
    + by eapply Hsave.
    + done.
  - intros pre p l m post Heq Hagg Hlt.
    apply snoc_eq_split in Heq as [[post1 [-> ->]]|(_ & <- & _)].
    + destruct (Hval _ _ _ _ _ eq_refl Hagg Hlt) as (e & post' & ->).
      by eexists _, _.
    + simpl in Hev. by rewrite Hagg in Hev.
Qed.

Lemma Jbest_neutral_app blk tr b :
  Forall neutral blk → Jbest tr b → Jbest (tr ++ blk) b.
Proof.
  intros Hblk. revert tr. induction Hblk as [|ev blk Hev _ IH]; intros tr HJ.
  - by rewrite app_nil_r.
  - rewrite cons_middle, app_assoc. by apply IH, Jbest_neutral.
Qed.

Lemma Jbest_low tr b progress val_log m :
  Jbest tr b → val_log !! "agg_metrics" = Some m → ¬ b < m →
  Jbest (tr ++ [EvEvalEpoch "val" progress (Some val_log)]) b.
Proof.
  intros (Hb & Hsave & Hval) Hagg Hlow. repeat split.
  - rewrite (val_metrics_val _ _ _ m), max0_app; [|done].
    pose proof (max0_nonneg (val_metrics tr)) as H0.
    rewrite <- Hb in H0 |- *. simpl. lia.
  - intros pre e post Heq.
    apply snoc_eq_split in Heq as [[post1 [-> ->]]|(_ & [=] & _)].
    by eapply Hsave.
  - intros pre p l m' post Heq Hagg' Hlt.
    apply snoc_eq_split in Heq as [[post1 [-> ->]]|(-> & [= -> ->] & _)].
    + destruct (Hval _ _ _ _ _ eq_refl Hagg' Hlt) as (e & post' & ->).
      by eexists _, _.
    + rewrite Hagg in Hagg'. injection Hagg' as <-. lia.
Qed.

Lemma Jbest_high tr b progress val_log e m :
  Jbest tr b → val_log !! "agg_metrics" = Some m → b < m →
  Jbest (tr ++ [EvEvalEpoch "val" progress (Some val_log); EvSetBest e m;
                EvSaveCheckpoint e true]) m.
Proof.
  intros (Hb & Hsave & Hval) Hagg Hhigh. repeat split.
  - change (tr ++ ?e1 :: ?rest) with (tr ++ [e1] ++ rest).
    rewrite app_assoc, val_metrics_silent; [|by repeat constructor].
    rewrite (val_metrics_val _ _ _ m), max0_app; [|done].
    pose proof (max0_nonneg (val_metrics tr)) as H0.
    rewrite <- Hb in H0 |- *. simpl. lia.
  - intros pre e' post Heq.
    apply app_eq_split in Heq as [[post1 [-> ->]]|[pre2 [-> Heq]]].
    + by eapply Hsave.
    + destruct pre2 as [|? [|? [|? [|? ?]]]]; simplify_eq/=.
      eexists tr, _, _, _. repeat split; [done|lia].
  - intros pre p l m' post Heq Hagg' Hlt.
    apply app_eq_split in Heq as [[post1 [-> ->]]|[pre2 [-> Heq]]].
    + destruct (Hval _ _ _ _ _ eq_refl Hagg' Hlt) as (e' & post' & ->).
      by eexists _, _.
    + destruct pre2 as [|? [|? [|? [|? ?]]]]; simplify_eq/=.
      by eexists _, _.
Qed.

Lemma Jbest_validate end_iters split_name :
  is_main_process c = true →
  keeps Jbest (λ _, Jbest) (validate_split c self end_iters split_name).
Proof.
  intros Hmain s Hs. unfold Iok in Hs.
  destruct (validate_split_cases end_iters split_name s)
    as [p w' r Hev [->|Hr]|p w' l Hev _ Hagg|p w' l m Hev _ Hagg Hlt ->
       |p w' l m Hev _ Hagg Hn]; unfold Jpost, Iok; simpl.
  - by apply Jbest_neutral.
  - congruence.
  - apply Jbest_neutral; [|done]. simpl. rewrite Hagg. by case_bool_decide.
  - match goal with |- Jbest (_ ++ ?e1 :: ?e2 :: ?e3 :: ?rest) _ =>
      change (Jbest (trace s ++ [e1; e2; e3] ++ rest) m) end.
    rewrite app_assoc. apply Jbest_neutral_app; [by repeat constructor|].
    by eapply Jbest_high.
  - destruct (decide (split_name = "val")) as [->|Hne].
    + rewrite cons_middle, app_assoc.
      apply Jbest_neutral_app; [by repeat constructor|].
      eapply Jbest_low; [done..|tauto].
    + apply Jbest_neutral_app; [|done].
      repeat constructor. simpl. by rewrite bool_decide_eq_false_2.
Qed.

Lemma Jbest_run (w : W) :
  is_main_process c = true →
  Jbest (trace (run c self w).2) (best_agg_metric (run c self w).2).
Proof.
  intros Hmain.
  assert (Jpost Jbest (λ _, Jbest) (run c self w).1 (run c self w).2) as Hpost.
  { apply train_invariant.
    - intros ev tr b Hev. apply Jbest_neutral. by destruct ev as [| | | | |?[]| | |].
    - intros. by apply Jbest_validate.
    - done.
    - repeat split.
      + intros [|??] ??; by intros [=].
      + intros [|??] ????; by intros [=]. }
  by destruct (run c self w).1.
Qed.

(** C1, as amended. On the main process a checkpoint is saved with
    [is_best=True] if and only if a validation pass on the split ["val"]
    returns a log whose aggregate metric strictly exceeds 0 and every
    aggregate metric read before on that split in the run: every such save
    directly follows such a pass, and such a pass is directly followed by
    the save exactly when its metric exceeds 0 and all earlier ones. *)
Theorem best_checkpoint_iff (w : W) :
  is_main_process c = true →
  let tr := trace (run c self w).2 in
  (∀ pre e post, tr = pre ++ EvSaveCheckpoint e true :: post →
     ∃ pre' progress val_log m,
       pre = pre' ++ [EvEvalEpoch "val" progress (Some val_log);
                      EvSetBest e m] ∧
       val_log !! "agg_metrics" = Some m ∧
       0 < m ∧ Forall (λ x, x < m) (val_metrics pre')) ∧
  (∀ pre progress val_log m post,
     tr = pre ++ EvEvalEpoch "val" progress (Some val_log) :: post →
     val_log !! "agg_metrics" = Some m →
     (0 < m ∧ Forall (λ x, x < m) (val_metrics pre)) ↔
     (∃ e post', post = EvSetBest e m :: EvSaveCheckpoint e true :: post')).
Proof.
  intros Hmain tr. destruct (Jbest_run w Hmain) as (_ & Hsave & Hval).
  fold tr in Hsave, Hval. split.
  - intros pre e post Heq.
    destruct (Hsave _ _ _ Heq) as (pre' & p & l & m & -> & Hagg & Hlt).
    apply max0_lt in Hlt. by eexists _, _, _, _.
  - intros pre p l m post Heq Hagg. split.
    + intros Hlt. apply max0_lt in Hlt. by eapply Hval.
    + intros (e & post' & ->).
      change (pre ++ ?e1 :: ?e2 :: ?rest) with (pre ++ [e1; e2] ++ rest) in Heq.
      rewrite app_assoc in Heq.
      destruct (Hsave _ _ _ Heq) as (pre' & p' & l' & m' & Hpre & Hagg' & Hlt).
      apply app_inj_2 in Hpre as [-> [= -> -> ->]]; [|done].
      by apply max0_lt.
Qed.

(** ** A validation log without the aggregate metric *)

Lemma Jagg_validate end_iters split_name :
  is_main_process c = true →
  keeps Jagg Jagg_raise (validate_split c self end_iters split_name).
Proof.
  intros Hmain s Hs. unfold Iok, Jagg in Hs.
  destruct (validate_split_cases end_iters split_name s)
    as [p w' r Hev [->|Hr]|p w' l Hev _ Hagg|p w' l m Hev _ Hagg Hlt ->
       |p w' l m Hev _ Hagg Hn]; unfold Jpost, Iok, Jagg_raise, Jagg; simpl.
  - apply Forall_app. split; [done|]. apply Forall_singleton. simpl. tauto.
  - congruence.
  - right. by eexists _, _.
  - apply Forall_app. split; [done|].
    repeat apply Forall_cons_2; simpl; try tauto; [|constructor].
    by rewrite Hagg.
  - apply Forall_app. split; [done|].
    repeat apply Forall_cons_2; simpl; try tauto; [|constructor].
    by rewrite Hagg.
Qed.

(** C4, as amended. On the main process, when [eval_epoch] returns a
    validation log without the key ["agg_metrics"], [train] raises the
    assertion error at once: the evaluation call is the last event of the
    run, so no further split or inner epoch is processed. *)
Theorem missing_agg_metrics_is_fatal (w : W) :
  is_main_process c = true →
  ∀ pre split_name progress val_log post,
    trace (run c self w).2
    = pre ++ EvEvalEpoch split_name progress (Some val_log) :: post →
    val_log !! "agg_metrics" = None →
    post = [] ∧
    (run c self w).1
    = Raise (AssertionError "No agg_metrics found in validation log.").
Proof.
  intros Hmain pre sp p l post Heq Hagg.
  assert (Jpost Jagg Jagg_raise (run c self w).1 (run c self w).2) as Hpost.
  { apply train_invariant.
    - intros ev tr b Hev Htr. apply Forall_app. split; [done|].
      apply Forall_singleton. destruct ev; simpl in *; tauto.
    - intros. by apply Jagg_validate.
    - intros msg tr b Htr. by left.
    - constructor. }
  assert (∀ tr b post', Jagg tr b → tr ≠ pre ++
            EvEvalEpoch sp p (Some l) :: post') as Hno.
  { intros tr b post' Htr ->. apply Forall_app in Htr as [_ Htr].
    apply Forall_cons in Htr as [Htr _]. by apply Htr. }
  destruct (run c self w).1 as [[]|e]; simpl in Hpost; unfold Iok in Hpost.
  - exfalso. by eapply (Hno _ _ post Hpost).
  - destruct Hpost as [Hpost|(pre' & ev & Htr & Hev & Hpre & ->)].
    + exfalso. by eapply (Hno _ _ post Hpost).
    + rewrite Htr in Heq.
      apply snoc_eq_split in Heq as [[post1 [-> _]]|(_ & _ & ->)].
      * exfalso. by eapply (Hno _ _ post1 Hpre).
      * done.
Qed.

(** ** The shape of an inner epoch *)

Lemma bind_run {A B} (m : M A) (f : A → M B) s :
  (m ≫= f) s
  = match m s with
    | (Ok a, s') => f a s'
    | (Raise e, s') => (Raise e, s')
    end.
Proof. done. Qed.

Section EmitsOnly.

Variable K : @event MS OS CD → Prop.

Lemma emits_ret {A} (a : A) : emits_only K (mret a : M A).
Proof. intros s. exists []. by rewrite app_nil_r. Qed.

Lemma emits_gets {A} (f : @state W MS OS CD → A) : emits_only K (gets f).
Proof. intros s. exists []. by rewrite app_nil_r. Qed.

Lemma emits_set_world (w : W) : emits_only K (set_world w).
Proof. intros s. exists []. simpl. by rewrite app_nil_r. Qed.

Lemma emits_emit ev : K ev → emits_only K (emit ev : M unit).
Proof. intros Hev s. exists [ev]. split; [done|by constructor]. Qed.

Lemma emits_bind {A B} (m : M A) (f : A → M B) :
  emits_only K m → (∀ a, emits_only K (f a)) → emits_only K (m ≫= f).
Proof.
  intros Hm Hf s. rewrite bind_run. destruct (Hm s) as (evs & Htr & Hevs).
  destruct (m s) as [[a|e] s']; simpl in *.
  - destruct (Hf a s') as (evs' & Htr' & Hevs'). exists (evs ++ evs').
    rewrite Htr', Htr, app_assoc. split; [done|by apply Forall_app].
  - by exists evs.
Qed.

Lemma emits_when (b : bool) (m : M unit) :
  (b = true → emits_only K m) → emits_only K (when b m).
Proof. intros Hm. destruct b; [by apply Hm|apply (emits_ret ())]. Qed.

Lemma emits_for_each {A} (l : list A) (body : A → M unit) :
  (∀ x, emits_only K (body x)) → emits_only K (for_each l body).
Proof.
  intros Hbody. induction l as [|x l IH]; simpl.
  - apply (emits_ret ()).
  - by apply emits_bind.
Qed.

End EmitsOnly.

Lemma validate_split_emits end_iters split_name :
  emits_only (body_event self) (validate_split c self end_iters split_name).
Proof.
  intros s.
  destruct (validate_split_cases end_iters split_name s);
    eexists; (split; [done|]); by repeat constructor.
Qed.

Lemma save_checkpoint_false_emits cur_iters :
  evaluate_only self = false →
  emits_only (body_event self) (save_checkpoint c self cur_iters false).
Proof.
  intros Hev. unfold save_checkpoint, main_process, save_checkpoint_body.
  apply emits_bind; [by apply emits_emit|intros _].
  destruct (is_main_process c); [|apply emits_ret].
  apply emits_bind; [apply emits_gets|intros obj]. by apply emits_emit.
Qed.

Lemma training_phase_emits start_iters :
  emits_only (body_event self) (training_phase c self start_iters).
Proof.
  unfold training_phase. apply emits_when. intros Hev%negb_true_iff.
  apply emits_bind; [apply emits_gets|intros e].
  apply emits_bind; [|intros stats; by apply emits_emit].
  unfold train_iters.
  apply emits_bind; [apply emits_gets|intros w].
  apply emits_bind; [apply emits_set_world|intros _].
  apply emits_bind; [by apply emits_emit|intros _].
  apply emits_bind; [apply emits_gets|intros w'].
  destruct (task_train_iters _ _ _ _ _) as [stats w''].
  apply emits_bind; [apply emits_set_world|intros _]. apply emits_ret.
Qed.

Lemma evaluation_phase_emits end_iters :
  emits_only (body_event self) (evaluation_phase c self end_iters).
Proof.
  unfold evaluation_phase. destruct (0 <? _)%nat.
  - apply emits_for_each. intros x. apply validate_split_emits.
  - apply emits_when. intros Hev%negb_true_iff.
    by apply save_checkpoint_false_emits.
Qed.

(** An inner epoch emits its entry marker, then events of the two phases,
    then the barrier unless the run is evaluate-only; it leaves the loop
    exactly in evaluate-only mode. *)
Lemma inner_epoch_shape start_iters s :
  ∃ evs, Forall (body_event self) evs ∧
    match (inner_epoch c self start_iters s).1 with
    | Ok brk =>
        brk = evaluate_only self ∧
        trace (inner_epoch c self start_iters s).2
        = trace s ++ EvInnerEpoch start_iters :: evs
            ++ (if evaluate_only self then [] else [EvBarrier])
    | Raise _ =>
        trace (inner_epoch c self start_iters s).2
        = trace s ++ EvInnerEpoch start_iters :: evs
    end.
Proof.
  destruct (inner_epoch c self start_iters s) as [o s'] eqn:Hrun. simpl.
  unfold inner_epoch in Hrun. rewrite bind_run in Hrun.
  unfold emit at 1 in Hrun. rewrite bind_run in Hrun.
  match type of Hrun with context [training_phase c self start_iters ?s1] =>
    destruct (training_phase_emits start_iters s1) as (ev1 & Htr1 & Hev1);
    destruct (training_phase c self start_iters s1) as [[[]|e1] s2]
  end; simpl in Htr1.
  2: { injection Hrun as <- <-. exists ev1. by rewrite Htr1, <- app_assoc. }
  rewrite bind_run in Hrun.
  match type of Hrun with context [evaluation_phase c self ?e ?s2] =>
    destruct (evaluation_phase_emits e s2) as (ev2 & Htr2 & Hev2);
    destruct (evaluation_phase c self e s2) as [[[]|e2] s3]
  end; simpl in Htr2.
  2: { injection Hrun as <- <-. exists (ev1 ++ ev2).
       split; [by apply Forall_app|]. by rewrite Htr2, Htr1, <- !app_assoc. }
  exists (ev1 ++ ev2). split; [by apply Forall_app|].
  destruct (evaluate_only self); simpl in Hrun; injection Hrun as <- <-.
  - split; [done|]. by rewrite Htr2, Htr1, app_nil_r, <- !app_assoc.
  - split; [done|]. simpl. by rewrite Htr2, Htr1, <- !app_assoc.
Qed.

Lemma inner_epochs_body (evs : list (@event MS OS CD)) :
  Forall (body_event self) evs → inner_epochs evs = [].
Proof.
  induction 1 as [|ev evs Hev _ IH]; [done|]. unfold inner_epochs. simpl.
  by destruct ev.
Qed.

Lemma barriers_body (evs : list (@event MS OS CD)) :
  Forall (body_event self) evs → barriers evs = [].
Proof.
  induction 1 as [|ev evs Hev _ IH]; [done|]. unfold barriers. simpl.
  by destruct ev.
Qed.

(** ** The loop over the inner epochs *)

Lemma for_break_cons {A} (x : A) (l : list A) (body : A → M bool) s :
  for_break (x :: l) body s
  = match body x s with
    | (Ok brk, s') => if brk then (Ok (), s') else for_break l body s'
    | (Raise e, s') => (Raise e, s')
    end.
Proof. simpl. rewrite bind_run. by destruct (body x s) as [[[]|] ?]. Qed.

Lemma epoch_block_inner_epochs tr start_iters
    (evs tail : list (@event MS OS CD)) :
  Forall (body_event self) evs → tail = [] ∨ tail = [EvBarrier] →
  inner_epochs (tr ++ EvInnerEpoch start_iters :: evs ++ tail)
  = inner_epochs tr ++ [start_iters].
Proof.
  intros Hevs Htail. unfold inner_epochs at 1. rewrite omap_app. simpl.
  rewrite omap_app. fold (inner_epochs evs). rewrite inner_epochs_body; [|done].
  by destruct Htail as [->| ->].
Qed.

Lemma epoch_block_barriers tr start_iters
    (evs tail : list (@event MS OS CD)) :
  Forall (body_event self) evs →
  barriers (tr ++ EvInnerEpoch start_iters :: evs ++ tail)
  = barriers tr ++ barriers tail.
Proof.
  intros Hevs. unfold barriers at 1. rewrite omap_app. simpl.
  rewrite omap_app. fold (barriers evs). by rewrite barriers_body.
Qed.

(** Outside evaluate-only mode a loop that completes runs the body for
    every element, each time followed by one barrier. *)
Lemma loop_training (l : list Z) s :
  evaluate_only self = false →
  (for_break l (inner_epoch c self) s).1 = Ok () →
  let tr' := trace (for_break l (inner_epoch c self) s).2 in
  inner_epochs tr' = inner_epochs (trace s) ++ l ∧
  length (barriers tr') = (length (barriers (trace s)) + length l)%nat ∧
  (l ≠ [] → ∃ pre, tr' = pre ++ [EvBarrier]).
Proof.
  intros Hmode. revert s. induction l as [|x l IH]; intros s Hok; cbv zeta.
  - simpl. rewrite app_nil_r. repeat split; [lia|done].
  - rewrite for_break_cons in Hok |- *.
    destruct (inner_epoch_shape x s) as (evs & Hevs & Hshape).
    destruct (inner_epoch c self x s) as [[brk|e] s']; simpl in *; [|done].
    destruct Hshape as [-> Htr]. rewrite Hmode in *.
    destruct (IH s' Hok) as (Hep & Hbar & Hlast).
    rewrite Hep, Hbar, Htr.
    rewrite epoch_block_inner_epochs, epoch_block_barriers by auto.
    rewrite <- app_assoc, length_app. simpl. repeat split; [lia|].
    intros _. destruct l as [|y l].
    + simpl. rewrite Htr.
      exists (trace s ++ EvInnerEpoch x :: evs).
      by rewrite <- app_assoc.
    + by apply Hlast.
Qed.

(** In evaluate-only mode the loop runs the body at most once, and what
    it emits are the entry marker and events of the two phases only. *)
Lemma loop_evaluate_only (l : list Z) s :
  evaluate_only self = true →
  ∃ evs, Forall (body_event self) evs ∧
    trace (for_break l (inner_epoch c self) s).2
    = trace s ++ match l with
                 | [] => []
                 | x :: _ => EvInnerEpoch x :: evs
                 end.
Proof.
  intros Hmode. destruct l as [|x l].
  - exists []. simpl. by rewrite app_nil_r.
  - rewrite for_break_cons.
    destruct (inner_epoch_shape x s) as (evs & Hevs & Hshape).
    exists evs. split; [done|].
    destruct (inner_epoch c self x s) as [[brk|e] s']; simpl in *; [|done].
    destruct Hshape as [-> Htr]. rewrite Hmode in *.
    by rewrite app_nil_r in Htr.
Qed.

(** [train] is the loop followed by the testing phase. *)
Lemma run_shape (w : W) :
  match range 0 (max_iters self) (iters_per_inner_epoch self) with
  | Raise e => run c self w = (Raise e, initial_state w)
  | Ok starts =>
      let r := for_break starts (inner_epoch c self) (initial_state w) in
      match r.1 with
      | Ok _ =>
          (run c self w).1 = Ok () ∧
          ∃ e, trace (run c self w).2 = trace r.2 ++ [EvEvaluate e]
      | Raise e => run c self w = (Raise e, r.2)
      end
  end.
Proof.
  unfold run, train. rewrite bind_run. unfold lift.
  destruct (range 0 _ _) as [starts|e]; [|done]. simpl.
  rewrite bind_run.
  destruct (for_break starts _ _) as [[[]|e] s']; simpl; [|done].
  split; [done|]. by eexists.
Qed.

(** ** The arithmetic of [range] *)

Lemma range_length (stop step : Z) (starts : list Z) :
  range 0 stop step = Ok starts →
  length starts = Z.to_nat (range_len 0 stop step).
Proof.
  unfold range. destruct (step =? 0); [done|]. intros [= <-].
  by rewrite length_fmap, length_seq.
Qed.

Lemma range_len_divisible (stop step : Z) :
  0 < stop → 0 < step → (step | stop) →
  range_len 0 stop step = stop / step.
Proof.
  intros Hstop Hstep [k ->]. unfold range_len.
  rewrite (proj2 (Z.ltb_lt 0 step)), (proj2 (Z.ltb_lt 0 (k * step))) by done.
  rewrite Z.div_mul by lia.
  replace (k * step - 0 - 1) with ((k - 1) * step + (step - 1)) by ring.
  rewrite Z.div_add_l, Z.div_small by lia. lia.
Qed.

Lemma range_positive (stop step : Z) :
  0 < stop → 0 < step →
  ∃ starts, range 0 stop step = Ok (0 :: starts).
Proof.
  intros Hstop Hstep. unfold range, range_len.
  rewrite (proj2 (Z.eqb_neq step 0)) by lia.
  rewrite (proj2 (Z.ltb_lt 0 step)), (proj2 (Z.ltb_lt 0 stop)) by done.
  assert (0 ≤ (stop - 0 - 1) / step) by (apply Z.div_pos; lia).
  destruct (Z.to_nat ((stop - 0 - 1) / step + 1)) as [|n] eqn:Hn; [lia|].
  simpl. by eexists.
Qed.

(** Outside evaluate-only mode a run that completes executes the loop body
    once for every element of [range(0, max_iters, iters_per_inner_epoch)]. *)
Lemma inner_epochs_training (w : W) (starts : list Z) :
  evaluate_only self = false →
  range 0 (max_iters self) (iters_per_inner_epoch self) = Ok starts →
  (run c self w).1 = Ok () →
  inner_epochs (trace (run c self w).2) = starts ∧
  length (barriers (trace (run c self w).2)) = length starts ∧
  (starts ≠ [] →
   ∃ pre e, trace (run c self w).2 = pre ++ [EvBarrier; EvEvaluate e]).
Proof.
  intros Hmode Hrange Hok. pose proof (run_shape w) as Hrun.
  rewrite Hrange in Hrun. cbv zeta in Hrun.
  destruct (for_break starts _ _).1 as [[]|e] eqn:Hloop.
  2: { rewrite Hrun in Hok. done. }
  destruct Hrun as [_ [e Htr]].
  destruct (loop_training starts (initial_state w) Hmode Hloop)
    as (Hep & Hbar & Hlast).
  rewrite Htr. unfold inner_epochs, barriers in *. rewrite !omap_app. simpl.
  rewrite !app_nil_r. repeat split; [done..|].
  intros Hne. destruct (Hlast Hne) as [pre ->]. exists pre, e.
  by rewrite <- app_assoc.
Qed.

(** ** Processes other than the main process *)


Lemma no_best_checkpoint_off_main (w : W) :
  is_main_process c = false →
  Jnobest (trace (run c self w).2) (best_agg_metric (run c self w).2).
Proof.
  intros Hmain.
  assert (Jpost Jnobest (λ _, Jnobest) (run c self w).1 (run c self w).2)
    as Hpost.
  { apply train_invariant.
    - intros ev tr b Hev Htr. apply Forall_app. split; [done|].
      apply Forall_singleton. by destruct ev as [| | | | |?[]| | |].
    - intros e sp s Hs. unfold Iok, Jnobest in Hs.
      destruct (validate_split_cases e sp s); unfold Jpost, Iok, Jnobest;
        simpl; try congruence.
      apply Forall_app. split; [done|]. by apply Forall_singleton.
    - done.
    - constructor. }
  by destruct (run c self w).1.
Qed.

(** ** The number of inner epochs and of barrier waits *)

(** C2, as amended. For [max_iters] and [iters_per_inner_epoch] both
    strictly positive, an evaluate-only run of [train] executes exactly one
    inner-epoch cycle, and a run that is not evaluate-only and completes
    executes exactly [max_iters / iters_per_inner_epoch] cycles when
    [iters_per_inner_epoch] divides [max_iters]. *)
Theorem inner_epoch_count (w : W) :
  0 < max_iters self → 0 < iters_per_inner_epoch self →
  let n := length (inner_epochs (trace (run c self w).2)) in
  (evaluate_only self = true → n = 1%nat) ∧
  (evaluate_only self = false →
   (iters_per_inner_epoch self | max_iters self) →
   (run c self w).1 = Ok () →
   Z.of_nat n = max_iters self / iters_per_inner_epoch self).
Proof.
  intros Hmax Hiters n. subst n.
  destruct (range_positive _ _ Hmax Hiters) as [starts Hrange]. split.
  - intros Hmode. pose proof (run_shape w) as Hrun.
    rewrite Hrange in Hrun. cbv zeta in Hrun.
    destruct (loop_evaluate_only (0 :: starts) (initial_state w) Hmode)
      as (evs & Hevs & Hloop).
    assert (inner_epochs
              (trace (for_break (0 :: starts) (inner_epoch c self)
                        (initial_state w)).2) = [0]) as Hone.
    { rewrite Hloop.
      change (inner_epochs (trace (initial_state w) ++ EvInnerEpoch 0 :: evs))
        with (0 :: inner_epochs evs).
      by rewrite inner_epochs_body. }
    destruct (for_break (0 :: starts) _ _).1 as [[]|e] eqn:Hres.
    + destruct Hrun as [_ [e ->]]. unfold inner_epochs in *.
      by rewrite omap_app, Hone.
    + rewrite Hrun. cbn [snd]. by rewrite Hone.
  - intros Hmode Hdiv Hok.
    destruct (inner_epochs_training w _ Hmode Hrange Hok) as (-> & _).
    rewrite (range_length _ _ _ Hrange), range_len_divisible by done.
    apply Z2Nat.id, Z.div_pos; lia.
Qed.

(** C5, as amended. In a run that is not evaluate-only and completes, the
    barrier is awaited at the end of every inner epoch, the final one
    included: the run has as many barrier waits as inner epochs, and when
    at least one inner epoch ran, the last barrier directly precedes the
    testing phase. *)
Theorem barrier_after_every_inner_epoch (w : W) :
  evaluate_only self = false →
  (run c self w).1 = Ok () →
  let tr := trace (run c self w).2 in
  length (barriers tr) = length (inner_epochs tr) ∧
  (inner_epochs tr ≠ [] → ∃ pre e, tr = pre ++ [EvBarrier; EvEvaluate e]).
Proof.
  intros Hmode Hok tr. subst tr.
  destruct (range 0 (max_iters self) (iters_per_inner_epoch self))
    as [starts|e] eqn:Hrange.
  - destruct (inner_epochs_training w _ Hmode Hrange Hok) as (-> & -> & Hlast).
    by split.
  - pose proof (run_shape w) as Hrun. rewrite Hrange in Hrun.
    rewrite Hrun in Hok. done.
Qed.

(** What does hold in evaluate-only mode: at most one loop pass, no
    barrier, no training call and no non-best checkpoint. *)
Lemma body_event_no_training (evs : list (@event MS OS CD)) :
  evaluate_only self = true →
  Forall (body_event self) evs → Forall no_training_event evs.
Proof.
  intros Hmode Hevs. eapply Forall_impl; [exact Hevs|].
  intros [| | | | |?[]| | |]; simpl; try done; congruence.
Qed.

Lemma evaluate_only_single_pass (w : W) :
  evaluate_only self = true →
  let tr := trace (run c self w).2 in
  (length (inner_epochs tr) ≤ 1)%nat ∧ Forall no_training_event tr.
Proof.
  intros Hmode tr. subst tr. pose proof (run_shape w) as Hrun.
  destruct (range 0 (max_iters self) (iters_per_inner_epoch self))
    as [starts|e] eqn:Hrange.
  2: { rewrite Hrun. simpl. split; [lia|constructor]. }
  cbv zeta in Hrun.
  destruct (loop_evaluate_only starts (initial_state w) Hmode)
    as (evs & Hevs & Hloop). simpl in Hloop.
  pose proof (body_event_no_training _ Hmode Hevs) as Hevs'.
  assert (∀ tail : list (@event MS OS CD),
            tail = [] ∨ (∃ e, tail = [EvEvaluate e]) →
            let tr := match starts with
                      | [] => []
                      | x :: _ => EvInnerEpoch x :: evs
                      end ++ tail in
            (length (inner_epochs tr) ≤ 1)%nat ∧ Forall no_training_event tr)
    as Hall.
  { intros tail Htail tr. subst tr.
    assert (inner_epochs tail = [] ∧ Forall no_training_event tail)
      as [Htail1 Htail2].
    { destruct Htail as [->|[e ->]]; by repeat constructor. }
    assert (∀ l1 l2 : list (@event MS OS CD),
              inner_epochs (l1 ++ l2) = inner_epochs l1 ++ inner_epochs l2)
      as Happ by (intros; apply omap_app).
    rewrite Happ, Htail1, app_nil_r.
    destruct starts as [|x starts]; [by split; [simpl; lia|]|].
    change (inner_epochs (EvInnerEpoch x :: evs)) with (x :: inner_epochs evs).
    rewrite inner_epochs_body by done.
    split; [simpl; lia|]. constructor; [done|]. by apply Forall_app. }
  destruct (for_break starts _ _).1 as [[]|e] eqn:Hres.
  - destruct Hrun as [_ [e ->]]. rewrite Hloop. simpl.
    apply Hall. right. by eexists.
  - rewrite Hrun. simpl. rewrite Hloop. simpl.
    rewrite <- (app_nil_r (match starts with [] => [] | _ => _ end)).
    apply Hall. by left.
Qed.

(** ** Inner epochs without validation split *)

Lemma inner_epoch_no_splits start_iters s :
  valid_splits self = [] → evaluate_only self = false →
  ∃ evs s',
    inner_epoch c self start_iters s = (Ok false, s') ∧
    trace s' = trace s ++ evs ∧
    inner_epochs evs = [start_iters] ∧
    save_calls evs = [(start_iters + iters_per_inner_epoch self, false)] ∧
    saved_paths evs
    = if is_main_process c
      then [checkpoint_path self
              (start_iters + iters_per_inner_epoch self) false]
      else [].
Proof.
  intros Hsplits Hmode.
  unfold inner_epoch, training_phase, evaluation_phase, train_iters,
    save_checkpoint, main_process, save_checkpoint_body, log_stats,
    cur_epoch, when.
  rewrite Hsplits, Hmode. simpl.
  unfold mbind, M_bind, bind, gets, set_world, emit, mret, M_ret, ret. simpl.
  destruct (task_train_iters c _ _ _ _) as [stats w'']. simpl.
  destruct (is_main_process c); simpl; eexists _, _;
    (split; [done|]); rewrite <- !app_assoc; simpl; by split.
Qed.

Lemma loop_no_splits (l : list Z) s :
  valid_splits self = [] → evaluate_only self = false →
  let r := for_break l (inner_epoch c self) s in
  r.1 = Ok () ∧
  inner_epochs (trace r.2) = inner_epochs (trace s) ++ l ∧
  save_calls (trace r.2)
  = save_calls (trace s)
    ++ ((λ st, (st + iters_per_inner_epoch self, false)) <$> l) ∧
  saved_paths (trace r.2)
  = saved_paths (trace s)
    ++ (if is_main_process c
        then (λ st, checkpoint_path self
                      (st + iters_per_inner_epoch self) false) <$> l
        else []).
Proof.
  intros Hsplits Hmode. revert s. induction l as [|x l IH]; intros s; cbv zeta.
  - destruct (is_main_process c); simpl; by rewrite !app_nil_r.
  - rewrite for_break_cons.
    destruct (inner_epoch_no_splits x s Hsplits Hmode)
      as (evs & s' & -> & Htr & Hep & Hcalls & Hpaths).
    destruct (IH s') as (-> & -> & -> & ->). rewrite Htr.
    unfold inner_epochs, save_calls, saved_paths in *.
    rewrite !omap_app, Hep, Hcalls, Hpaths, <- !app_assoc.
    by destruct (is_main_process c).
Qed.

(** Without validation split and outside evaluate-only mode, a process
    calls [save_checkpoint(end_iters, is_best=False)] once per inner epoch
    and nothing else; the main process writes the file. *)
Lemma no_splits_process (w : W) :
  valid_splits self = [] → evaluate_only self = false →
  let tr := trace (run c self w).2 in
  save_calls tr
  = (λ st, (st + iters_per_inner_epoch self, false)) <$> inner_epochs tr ∧
  saved_paths tr
  = (if is_main_process c
     then (λ st, checkpoint_path self
                   (st + iters_per_inner_epoch self) false)
          <$> inner_epochs tr
     else []) ∧
  (∀ starts,
     range 0 (max_iters self) (iters_per_inner_epoch self) = Ok starts →
     (run c self w).1 = Ok () ∧ inner_epochs tr = starts).
Proof.
  intros Hsplits Hmode tr. subst tr. pose proof (run_shape w) as Hrun.
  destruct (range 0 (max_iters self) (iters_per_inner_epoch self))
    as [starts|e] eqn:Hrange.
  2: { rewrite Hrun. simpl. by destruct (is_main_process c). }
  cbv zeta in Hrun.
  destruct (loop_no_splits starts (initial_state w) Hsplits Hmode)
    as (Hok & Hep & Hcalls & Hpaths).
  rewrite Hok in Hrun. destruct Hrun as [Hres [e Htr]]. rewrite Htr.
  unfold inner_epochs, save_calls, saved_paths in *.
  rewrite !omap_app, Hep, Hcalls, Hpaths. simpl. rewrite !app_nil_r.
  split; [done|]. split; [done|]. by intros ? [= <-].
Qed.

(** ** Construction *)

(** C7. A configuration whose [max_iters] or [iters_per_inner_epoch] is
    zero or negative, the default -1 of an absent key included, makes
    [__init__] fail with an assertion error; no runner is constructed, so
    no training step can run. *)
Theorem init_rejects_nonpositive (b : RunnerBase) :
  default (-1) (run_cfg (config b) !! "max_iters") ≤ 0 ∨
  default (-1) (run_cfg (config b) !! "iters_per_inner_epoch") ≤ 0 →
  (∃ msg, __init__ b = Raise (AssertionError msg)) ∧
  ∀ r, __init__ b ≠ Ok r.
Proof.
  intros Hbad. unfold __init__.
  destruct (0 <? default (-1) (run_cfg (config b) !! "max_iters"))
    eqn:Hmax; simpl; [|split; [by eexists|done]].
  destruct (0 <? default (-1) (run_cfg (config b) !! "iters_per_inner_epoch"))
    eqn:Hiters; simpl; [|split; [by eexists|done]].
  apply Z.ltb_lt in Hmax, Hiters. lia.
Qed.


(** ** A validation that returns nothing *)

(** C10. When [eval_epoch] returns [None] for a split, the processing of
    that split ends normally with nothing but the evaluation call added to
    the trace: no error, no change of [best_agg_metric] or [best_iters], no
    checkpoint, no statistics; and the loop over the splits goes on with
    the remaining splits from that state. *)
Theorem none_validation_is_skipped (end_iters : Z) (split_name : string)
    (rest : list string) s (progress : string) (w' : W) :
  (_progress c end_iters s).1 = Ok progress →
  eval_epoch c split_name progress (world s) = (None, w') →
  let s' := {| world := w'; best_agg_metric := best_agg_metric s;
               best_iters := best_iters s;
               trace := trace s ++ [EvEvalEpoch split_name progress None] |} in
  validate_split c self end_iters split_name s = (Ok (), s') ∧
  for_each (split_name :: rest) (validate_split c self end_iters) s
  = for_each rest (validate_split c self end_iters) s'.
Proof.
  intros Hprogress Heval s'.
  assert (validate_split c self end_iters split_name s = (Ok (), s')) as Hone.
  { unfold validate_split, _progress, cur_epoch in *.
    unfold mbind, M_bind, bind, gets, mret, M_ret, ret in *. simpl in *.
    injection Hprogress as Hprogress. rewrite Hprogress, Heval. done. }
  split; [done|]. simpl. by rewrite bind_run, Hone.
Qed.

(** ** Checkpoint files *)

Lemma string_length_app (s1 s2 : string) :
  String.length (s1 +:+ s2) = (String.length s1 + String.length s2)%nat.
Proof. induction s1 as [|a s1 IH]; simpl; [done|by rewrite IH]. Qed.

Lemma string_app_inj_r (s1 s2 suffix : string) :
  s1 +:+ suffix = s2 +:+ suffix → s1 = s2.
Proof.
  revert s2. induction s1 as [|a s1 IH]; intros [|b s2] Heq; simpl in *.
  - done.
  - apply (f_equal String.length) in Heq.
    rewrite !string_length_app in Heq. simpl in Heq. lia.
  - apply (f_equal String.length) in Heq.
    rewrite !string_length_app in Heq. simpl in Heq. lia.
  - injection Heq as -> Heq. f_equal. by apply IH.
Qed.

(** The name of a checkpoint file is relative, so [os.path.join] keeps the
    output directory in front of it. *)
Lemma checkpoint_path_join :
  ∃ separator,
    (separator = "" ∨ separator = "/") ∧
    ∀ i b, checkpoint_path self i b
           = output_dir self +:+ separator +:+ "checkpoint_"
               +:+ checkpoint_label i b +:+ ".pth".
Proof.
  unfold checkpoint_path, os_path_join. simpl.
  destruct (bool_decide (output_dir self = "") || endswith_slash _).
  - exists "". split; [by left|done].
  - exists "/". split; [by right|done].
Qed.

Lemma checkpoint_path_best (i j : Z) :
  checkpoint_path self i true = checkpoint_path self j true.
Proof. done. Qed.

Lemma checkpoint_path_non_best_inj (i j : Z) :
  checkpoint_path self i false = checkpoint_path self j false → i = j.
Proof.
  destruct checkpoint_path_join as (sep & _ & Hpath).
  rewrite !Hpath. simpl. intros Heq.
  apply (inj (String.append _)) in Heq.
  apply (inj (String.append _)) in Heq.
  injection Heq as Heq. apply (string_app_inj_r _ _ ".pth") in Heq.
  by apply (inj pretty) in Heq.
Qed.

Lemma save_obj_of_dom (w : W) (cur_iters : Z) :
  dom (save_obj_of c self w cur_iters)
  = ({["model"; "optimizer"; "config"; "iters"]} : gset string).
Proof.
  unfold save_obj_of. rewrite !dom_insert_L, dom_empty_L. set_solver.
Qed.

(** C9, as amended. A call [save_checkpoint(cur_iters, is_best)] on the
    main process writes exactly one file, at
    [os.path.join(output_dir, "checkpoint_<label>.pth")] where the label
    is ["best"] when [is_best] holds and the decimal [cur_iters] otherwise;
    on any other process the call writes nothing.  The object written has
    exactly the keys ["model"], ["optimizer"], ["config"] and ["iters"],
    holding the model state, the optimizer state, the configuration and
    [cur_iters].  So all best saves go to one file, and non-best saves of
    different iteration counts go to different files. *)
Theorem save_checkpoint_writes (cur_iters : Z) (is_best : bool) s :
  let save_obj := save_obj_of c self (world s) cur_iters in
  let save_to :=
    os_path_join (output_dir self)
      ("checkpoint_" +:+ (if is_best then "best" else pretty cur_iters)
         +:+ ".pth") in
  save_checkpoint c self cur_iters is_best s
  = (Ok (),
     {| world := world s; best_agg_metric := best_agg_metric s;
        best_iters := best_iters s;
        trace := trace s ++
                 EvSaveCheckpoint cur_iters is_best ::
                 (if is_main_process c
                  then [EvTorchSave save_obj save_to] else []) |}) ∧
  dom save_obj = ({["model"; "optimizer"; "config"; "iters"]} : gset string) ∧
  save_obj !! "model" = Some (ModelState (model_state_dict c (world s))) ∧
  save_obj !! "optimizer"
  = Some (OptimizerState (optimizer_state_dict c (world s))) ∧
  save_obj !! "config" = Some (ConfigDict (config_to_dict c (config self))) ∧
  save_obj !! "iters" = Some (ItersValue cur_iters) ∧
  (output_dir self ≠ "" → endswith_slash (output_dir self) = false →
   save_to
   = output_dir self +:+ "/checkpoint_"
       +:+ (if is_best then "best" else pretty cur_iters) +:+ ".pth") ∧
  (∀ i j, checkpoint_path self i true = checkpoint_path self j true) ∧
  (∀ i j, checkpoint_path self i false = checkpoint_path self j false →
          i = j).
Proof.
  intros save_obj save_to. split; [|split; [apply save_obj_of_dom|]].
  - unfold save_checkpoint, main_process, save_checkpoint_body.
    unfold mbind, M_bind, bind, gets, emit. simpl.
    destruct (is_main_process c); simpl; [|done].
    by rewrite <- app_assoc.
  - do 4 (split; [done|]). split; [|split; [done|]].
    + intros Hne Hslash. subst save_to. unfold os_path_join. simpl.
      by rewrite bool_decide_eq_false_2, Hslash.
    + apply checkpoint_path_non_best_inj.
Qed.

End Proofs.

(** * More on the runner *)

Section Coverage.

Context {W MS OS CD : Type}.
Variable c : @collaborators W MS OS CD.
Variable self : RunnerIter.

Implicit Types (s : @state W MS OS CD) (tr : list (@event MS OS CD)).
Implicit Types (ev : @event MS OS CD) (K : @event MS OS CD → Prop).

#[local] Abbreviation M := (@M W MS OS CD).

(** ** Where the events of a run come from *)

Lemma emits_only_impl K K' {A} (m : M A) :
  (∀ ev, K ev → K' ev) → emits_only K m → emits_only K' m.
Proof.
  intros HK Hm s. destruct (Hm s) as (evs & Htr & Hevs). exists evs.
  split; [done|]. by eapply Forall_impl.
Qed.

Lemma emits_bind_gets K {A B} (f : @state W MS OS CD → A) (g : A → M B) :
  (∀ s0, emits_only K (g (f s0))) → emits_only K (gets f ≫= g).
Proof. intros Hg s. rewrite bind_run. simpl. apply Hg. Qed.

Lemma emits_for_each_elem K {A} (l : list A) (body : A → M unit) :
  (∀ x, x ∈ l → emits_only K (body x)) → emits_only K (for_each l body).
Proof.
  induction l as [|x l IH]; intros Hbody; simpl.
  - apply (emits_ret K ()).
  - apply emits_bind; [apply Hbody; left|intros _].
    apply IH. intros y Hy. apply Hbody. by right.
Qed.

Lemma emits_for_break K {A} (l : list A) (body : A → M bool) :
  (∀ x, x ∈ l → emits_only K (body x)) → emits_only K (for_break l body).
Proof.
  induction l as [|x l IH]; intros Hbody; simpl.
  - apply (emits_ret K ()).
  - apply emits_bind; [apply Hbody; left|intros [|]].
    + apply (emits_ret K ()).
    + apply IH. intros y Hy. apply Hbody. by right.
Qed.

Lemma training_phase_origin start_iters :
  emits_only (training_event c self start_iters)
    (training_phase c self start_iters).
Proof.
  unfold training_phase. destruct (evaluate_only self) eqn:Hmode; simpl.
  { apply (emits_ret _ ()). }
  unfold cur_epoch. apply emits_bind_gets. intros s0.
  apply emits_bind; [|intros stats; by apply emits_emit].
  unfold train_iters.
  apply emits_bind; [apply emits_gets|intros w].
  apply emits_bind; [apply emits_set_world|intros _].
  apply emits_bind.
  { apply emits_emit. simpl. repeat split; [done|]. by exists (world s0). }
  intros _. apply emits_bind; [apply emits_gets|intros w'].
  destruct (task_train_iters _ _ _ _ _) as [stats w''].
  apply emits_bind; [apply emits_set_world|intros _]. apply emits_ret.
Qed.

Lemma validate_split_origin end_iters split_name :
  split_name ∈ valid_splits self →
  emits_only (validation_event c self end_iters)
    (validate_split c self end_iters split_name).
Proof.
  intros Hin s.
  assert (valid_splits self ≠ []) as Hne.
  { intros Heq. rewrite Heq in Hin. by apply elem_of_nil in Hin. }
  assert (∀ ret, validation_event c self end_iters
            (EvEvalEpoch split_name (progress_label c (world s) end_iters)
               ret)) as Heval.
  { intros ret. split; [done|]. by exists (world s). }
  unfold progress_label, epoch_in in Heval.
  unfold validate_split, _progress, cur_epoch, gets, set_world, emit,
    when, assert, set_best, save_checkpoint, main_process,
    save_checkpoint_body, log_stats, mbind, M_bind, bind, mret, M_ret, ret,
    raise.
  simpl.
  destruct (eval_epoch c split_name _ (world s)) as [[val_log|] w']; simpl.
  2: { eexists. split; [done|]. apply Forall_singleton, Heval. }
  destruct (is_main_process c) eqn:Hmain; simpl.
  2: { eexists. split; [done|]. apply Forall_singleton, Heval. }
  destruct (val_log !! "agg_metrics") as [m|] eqn:Hagg; simpl.
  2: { eexists. split; [done|]. apply Forall_singleton, Heval. }
  assert (∀ i, validation_event c self end_iters
                 (EvLogStats (<["best_iters" := i]> val_log) split_name))
    as Hlog.
  { intros i. simpl. repeat split; [done..|].
    rewrite lookup_insert_eq. by eexists. }
  destruct ((best_agg_metric s <? m) && bool_decide (split_name = "val"));
    unfold emit; simpl; rewrite ?Hmain; simpl; rewrite <- ?app_assoc; simpl.
  - eexists. split; [done|].
    apply Forall_cons_2; [apply Heval|].
    apply Forall_cons_2; [by split|].
    apply Forall_cons_2; [by repeat split|].
    apply Forall_cons_2; [|apply Forall_singleton, Hlog].
    simpl. split; [done|]. exists w'. by rewrite bool_decide_eq_true_2.
  - eexists. split; [done|].
    apply Forall_cons_2; [apply Heval|]. apply Forall_singleton, Hlog.
Qed.

Lemma evaluation_phase_origin end_iters :
  emits_only (validation_event c self end_iters)
    (evaluation_phase c self end_iters).
Proof.
  unfold evaluation_phase. destruct (0 <? _)%nat eqn:Hlen.
  - apply emits_for_each_elem. intros x Hx. by apply validate_split_origin.
  - apply Nat.ltb_ge in Hlen.
    assert (valid_splits self = []) as Hnil
      by (apply length_zero_iff_nil; lia).
    destruct (evaluate_only self) eqn:Hmode; simpl.
    { apply (emits_ret _ ()). }
    unfold save_checkpoint, main_process, save_checkpoint_body.
    apply emits_bind; [by apply emits_emit|intros _].
    destruct (is_main_process c) eqn:Hmain; [|apply emits_ret].
    apply emits_bind_gets. intros s0. apply emits_emit. simpl.
    split; [done|]. exists (world s0).
    rewrite bool_decide_eq_false_2; [done|]. by intros [].
Qed.

Lemma inner_epoch_origin start_iters :
  emits_only (epoch_event c self start_iters)
    (inner_epoch c self start_iters).
Proof.
  unfold inner_epoch.
  apply emits_bind; [apply emits_emit; by left|intros _].
  apply emits_bind.
  { eapply emits_only_impl; [|apply training_phase_origin].
    intros ev Hev. right. by left. }
  intros _. apply emits_bind.
  { eapply emits_only_impl; [|apply evaluation_phase_origin].
    intros ev Hev. right. right. by left. }
  intros _. destruct (evaluate_only self) eqn:Hmode.
  - apply emits_ret.
  - apply emits_bind; [|intros _; apply emits_ret].
    apply emits_emit. right. right. by right.
Qed.

(** Every event of a run belongs to an inner epoch that starts at an
    element of the range, or is the final evaluation. *)
Lemma run_origin (w : W) : Forall (run_event c self) (trace (run c self w).2).
Proof.
  unfold run, train. rewrite bind_run. unfold lift.
  destruct (range 0 (max_iters self) (iters_per_inner_epoch self))
    as [starts|e] eqn:Hrange; [|constructor].
  assert (emits_only (run_event c self)
            (for_break starts (inner_epoch c self)
             ≫= λ _, testing_phase c)) as Hm.
  { apply emits_bind.
    - apply emits_for_break. intros x Hx.
      eapply emits_only_impl; [|apply inner_epoch_origin].
      intros ev Hev. left. exists x. split; [|done].
      unfold epoch_starts. by rewrite Hrange.
    - intros _. unfold testing_phase, cur_epoch.
      apply emits_bind_gets. intros s0.
      apply emits_bind; [apply emits_gets|intros w0].
      apply emits_bind; [apply emits_set_world|intros _].
      apply emits_emit. right. by exists (world s0). }
  destruct (Hm (initial_state w)) as (evs & Htr & Hevs).
  cbv beta iota. by rewrite Htr.
Qed.

Lemma epoch_starts_elem (start_iters : Z) :
  0 < iters_per_inner_epoch self →
  start_iters ∈ epoch_starts self →
  ∃ k : nat, start_iters = Z.of_nat k * iters_per_inner_epoch self ∧
             start_iters < max_iters self.
Proof.
  intros Hstep. unfold epoch_starts, range, range_len.
  rewrite (proj2 (Z.eqb_neq _ 0)), (proj2 (Z.ltb_lt 0 _)) by lia.
  intros (k & -> & Hk%elem_of_seq)%list_elem_of_fmap. exists k.
  split; [lia|].
  destruct (0 <? max_iters self) eqn:Hmax; [|simpl in Hk; lia].
  apply Z.ltb_lt in Hmax.
  assert (0 ≤ (max_iters self - 0 - 1) / iters_per_inner_epoch self)
    by (apply Z.div_pos; lia).
  assert (Z.of_nat k ≤ (max_iters self - 0 - 1) / iters_per_inner_epoch self)
    by lia.
  pose proof (Z.mul_div_le (max_iters self - 0 - 1)
                (iters_per_inner_epoch self) Hstep). nia.
Qed.

(** X1. Every call to [save_checkpoint] and every assignment to
    [best_iters] carries the end iteration count of an executed inner
    epoch: a positive multiple [(k + 1) * iters_per_inner_epoch] of the
    inner epoch width whose inner epoch starts below [max_iters]. *)
Theorem checkpoint_labels_are_epoch_ends (w : W) :
  0 < iters_per_inner_epoch self →
  Forall (λ ev, match ev with
                | EvSaveCheckpoint i _ | EvSetBest i _ =>
                    ∃ k : nat,
                      i = (Z.of_nat k + 1) * iters_per_inner_epoch self ∧
                      i - iters_per_inner_epoch self < max_iters self
                | _ => True
                end) (trace (run c self w).2).
Proof.
  intros Hstep. eapply Forall_impl; [apply run_origin|].
  intros ev [(st & Hst & Hev)|[w' ->]]; [|done].
  destruct (epoch_starts_elem st Hstep Hst) as (k & Hk & Hlt).
  destruct Hev as [->|[Hev|[Hev| [-> _]]]]; try done.
  - by destruct ev.
  - destruct ev as [| | | |i m|i b| | |]; try done.
    + destruct Hev as [_ ->]. exists k. split; lia.
    + destruct Hev as [-> _]. exists k. split; lia.
Qed.

(** X2. When a validation split is configured, [train] never calls
    [save_checkpoint(..., is_best=False)], and the only file it ever
    writes is [checkpoint_best.pth] in the output directory. *)
Theorem only_best_checkpoint_with_splits (w : W) :
  valid_splits self ≠ [] →
  Forall (λ ev, match ev with
                | EvSaveCheckpoint _ is_best => is_best = true
                | EvTorchSave _ save_to =>
                    save_to
                    = os_path_join (output_dir self) "checkpoint_best.pth"
                | _ => True
                end) (trace (run c self w).2).
Proof.
  intros Hsplits. eapply Forall_impl; [apply run_origin|].
  intros ev [(st & Hst & Hev)|[w' ->]]; [|done].
  destruct Hev as [->|[Hev|[Hev| [-> _]]]]; try done.
  - by destruct ev.
  - destruct ev as [| | | | |i [|]|o p| |]; try done.
    + by destruct Hev as (_ & ? & _).
    + destruct Hev as (_ & w' & _ & ->).
      by rewrite bool_decide_eq_true_2.
Qed.

(** X3. With a streaming train loader, which has no [epoch] attribute,
    every call to [train_iters] and the final [evaluate] receive epoch 0,
    and every call to [eval_epoch] is labelled ["0_iters=<end_iters>"] with
    the end iteration count of an inner epoch of the range. *)
Theorem streaming_loader_epoch_zero (w : W) :
  (∀ w', train_loader_epoch c w' = None) →
  Forall (λ ev, match ev with
                | EvTrainIters e _ _ | EvEvaluate e => e = 0
                | EvEvalEpoch _ progress _ =>
                    ∃ start_iters,
                      start_iters ∈ epoch_starts self ∧
                      progress
                      = "0_iters="
                        +:+ pretty (start_iters + iters_per_inner_epoch self)
                | _ => True
                end) (trace (run c self w).2).
Proof.
  intros Hstream. eapply Forall_impl; [apply run_origin|].
  assert (∀ w', epoch_in c w' = 0) as Hzero.
  { intros w'. unfold epoch_in. by rewrite Hstream. }
  intros ev [(st & Hst & Hev)|[w' ->]]; [|apply Hzero].
  destruct Hev as [->|[Hev|[Hev| [-> _]]]]; try done.
  - destruct ev; try done. destruct Hev as (_ & _ & _ & w' & ->).
    apply Hzero.
  - destruct ev; try done. destruct Hev as (_ & w' & ->).
    exists st. split; [done|]. unfold progress_label. by rewrite Hzero.
Qed.




Lemma epoch_event_not_evaluate start_iters ev :
  epoch_event c self start_iters ev →
  match ev with EvEvaluate _ => False | _ => True end.
Proof. intros [->|[Hev|[Hev|[-> _]]]]; try done; by destruct ev. Qed.

(** X6. The final evaluation is performed exactly once, as the last call,
    when [train] returns normally, and never when [train] raises. *)
Theorem final_evaluation_once (w : W) :
  match (run c self w).1 with
  | Ok _ =>
      ∃ pre e, trace (run c self w).2 = pre ++ [EvEvaluate e] ∧
               evaluate_calls pre = []
  | Raise _ => evaluate_calls (trace (run c self w).2) = []
  end.
Proof.
  pose proof (run_shape c self w) as Hrun.
  destruct (range 0 (max_iters self) (iters_per_inner_epoch self))
    as [starts|e0] eqn:Hrange; [|by rewrite Hrun].
  cbv zeta in Hrun.
  assert (evaluate_calls
            (trace (for_break starts (inner_epoch c self)
                      (initial_state w)).2) = []) as Hnone.
  { destruct (emits_for_break
                (λ ev, match ev with EvEvaluate _ => False | _ => True end)
                starts (inner_epoch c self)
                (λ x _, emits_only_impl _ _ _
                          (epoch_event_not_evaluate x)
                          (inner_epoch_origin x))
                (initial_state w)) as (evs & -> & Hevs).
    simpl. unfold evaluate_calls.
    induction Hevs as [|ev evs Hev _ IH]; [done|]. simpl. by destruct ev. }
  destruct (for_break starts _ _).1 as [[]|e'].
  - destruct Hrun as [-> [e ->]]. by eexists _, _.
  - by rewrite Hrun.
Qed.

(** ** The schedule of a completed run *)

Lemma schedule_app tr1 tr2 : schedule (tr1 ++ tr2) = schedule tr1 ++ schedule tr2.
Proof. apply omap_app. Qed.

Lemma for_each_cons {A} (x : A) (l : list A) (body : A → M unit) s :
  for_each (x :: l) body s
  = match body x s with
    | (Ok _, s') => for_each l body s'
    | (Raise e, s') => (Raise e, s')
    end.
Proof. simpl. by rewrite bind_run. Qed.

Lemma training_phase_schedule start_iters s :
  (training_phase c self start_iters s).1 = Ok () ∧
  schedule (trace (training_phase c self start_iters s).2)
  = schedule (trace s)
    ++ (if evaluate_only self then []
        else [CallTrainIters start_iters (iters_per_inner_epoch self)]).
Proof.
  unfold training_phase, train_iters, log_stats, cur_epoch, when.
  destruct (evaluate_only self); simpl.
  { split; [done|]. by rewrite app_nil_r. }
  unfold mbind, M_bind, bind, gets, set_world, emit, mret, M_ret, ret. simpl.
  destruct (task_train_iters c _ _ _ _) as [stats w'']. simpl.
  split; [done|]. rewrite !schedule_app. simpl. by rewrite app_nil_r.
Qed.

Lemma validate_split_schedule end_iters split_name s :
  schedule (trace (validate_split c self end_iters split_name s).2)
  = schedule (trace s) ++ [CallEvalEpoch split_name].
Proof.
  destruct (validate_split_cases c self end_iters split_name s); simpl;
    by rewrite schedule_app.
Qed.

Lemma validation_loop_schedule end_iters (l : list string) s :
  (for_each l (validate_split c self end_iters) s).1 = Ok () →
  schedule (trace (for_each l (validate_split c self end_iters) s).2)
  = schedule (trace s) ++ (CallEvalEpoch <$> l).
Proof.
  revert s. induction l as [|x l IH]; intros s Hok.
  - simpl. by rewrite app_nil_r.
  - rewrite for_each_cons in Hok |- *.
    pose proof (validate_split_schedule end_iters x s) as Hx.
    destruct (validate_split c self end_iters x s) as [[[]|e] s']; [|done].
    simpl in Hx. rewrite (IH s' Hok), Hx, <- app_assoc. done.
Qed.

Lemma evaluation_phase_schedule end_iters s :
  (evaluation_phase c self end_iters s).1 = Ok () →
  schedule (trace (evaluation_phase c self end_iters s).2)
  = schedule (trace s) ++ (CallEvalEpoch <$> valid_splits self).
Proof.
  unfold evaluation_phase. destruct (0 <? _)%nat eqn:Hlen.
  { apply validation_loop_schedule. }
  apply Nat.ltb_ge in Hlen.
  assert (valid_splits self = []) as -> by (apply length_zero_iff_nil; lia).
  intros _. simpl. rewrite app_nil_r.
  unfold save_checkpoint, main_process, save_checkpoint_body, when.
  destruct (evaluate_only self); simpl; [done|].
  unfold mbind, M_bind, bind, gets, emit, mret, M_ret, ret. simpl.
  destruct (is_main_process c); simpl; rewrite !schedule_app; simpl;
    by rewrite !app_nil_r.
Qed.

Lemma inner_epoch_schedule start_iters s (brk : bool) :
  (inner_epoch c self start_iters s).1 = Ok brk →
  brk = evaluate_only self ∧
  schedule (trace (inner_epoch c self start_iters s).2)
  = schedule (trace s) ++ epoch_schedule self start_iters.
Proof.
  destruct (inner_epoch c self start_iters s) as [o s'] eqn:Hrun. simpl.
  intros ->.
  unfold inner_epoch in Hrun. rewrite bind_run in Hrun.
  unfold emit at 1 in Hrun. rewrite bind_run in Hrun.
  match type of Hrun with context [training_phase c self start_iters ?s1] =>
    destruct (training_phase_schedule start_iters s1) as [Hok1 Hsch1];
    destruct (training_phase c self start_iters s1) as [[[]|e1] s2]
  end; [|done].
  simpl in Hsch1. rewrite schedule_app in Hsch1. simpl in Hsch1.
  rewrite bind_run in Hrun.
  match type of Hrun with context [evaluation_phase c self ?e ?s2] =>
    pose proof (evaluation_phase_schedule e s2) as Hsch2;
    destruct (evaluation_phase c self e s2) as [[[]|e2] s3]
  end; [|done].
  specialize (Hsch2 eq_refl). simpl in Hsch2. unfold epoch_schedule.
  destruct (evaluate_only self); simpl in Hrun; injection Hrun as <- <-.
  - split; [done|]. rewrite Hsch2, Hsch1, <- !app_assoc. simpl.
    by rewrite !app_nil_r.
  - split; [done|]. simpl. rewrite schedule_app, Hsch2, Hsch1.
    by rewrite <- !app_assoc.
Qed.

Lemma loop_schedule (l : list Z) s :
  (for_break l (inner_epoch c self) s).1 = Ok () →
  schedule (trace (for_break l (inner_epoch c self) s).2)
  = schedule (trace s)
    ++ concat (epoch_schedule self
                 <$> (if evaluate_only self then take 1 l else l)).
Proof.
  revert s. induction l as [|x l IH]; intros s Hok.
  - simpl. destruct (evaluate_only self); simpl; by rewrite app_nil_r.
  - rewrite for_break_cons in Hok |- *.
    pose proof (inner_epoch_schedule x s) as Hx.
    destruct (inner_epoch c self x s) as [[brk|e] s']; [|done].
    destruct (Hx brk eq_refl) as [-> Hsch]. simpl in Hsch.
    destruct (evaluate_only self) eqn:Hmode.
    + simpl. by rewrite Hsch, app_nil_r.
    + rewrite (IH s' Hok), Hsch, <- app_assoc. done.
Qed.

(** X7. The calls of a run of [train] that completes are, in order: for
    every element [start_iters] of the range (only the first one in
    evaluate-only mode), the entry of the inner epoch, one call to
    [train_iters] for the span of [iters_per_inner_epoch] iterations that
    starts there (not in evaluate-only mode), one call to [eval_epoch] per
    configured validation split, in the configured order, and the barrier
    (not in evaluate-only mode); then the final evaluation. *)
Theorem schedule_of_completed_run (w : W) (starts : list Z) :
  range 0 (max_iters self) (iters_per_inner_epoch self) = Ok starts →
  (run c self w).1 = Ok () →
  schedule (trace (run c self w).2)
  = concat (epoch_schedule self
              <$> (if evaluate_only self then take 1 starts else starts))
    ++ [CallEvaluate].
Proof.
  intros Hrange Hok. pose proof (run_shape c self w) as Hrun.
  rewrite Hrange in Hrun. cbv zeta in Hrun.
  pose proof (loop_schedule starts (initial_state w)) as Hloop.
  destruct (for_break starts _ _).1 as [[]|e].
  - destruct Hrun as [_ [e ->]]. rewrite schedule_app, (Hloop eq_refl). done.
  - rewrite Hrun in Hok. done.
Qed.

(** ** The number of inner epochs in general *)

Lemma range_len_ceil (stop step : Z) :
  0 < stop → 0 < step →
  range_len 0 stop step = (stop + step - 1) / step.
Proof.
  intros Hstop Hstep. unfold range_len.
  rewrite (proj2 (Z.ltb_lt 0 step)), (proj2 (Z.ltb_lt 0 stop)) by done.
  replace (stop + step - 1) with (stop - 0 - 1 + 1 * step) by ring.
  by rewrite Z.div_add by lia.
Qed.

(** X8. For positive [max_iters] and [iters_per_inner_epoch], a run that
    is not evaluate-only and completes executes
    [ceil(max_iters / iters_per_inner_epoch)] inner epochs, which start at
    0, [iters_per_inner_epoch], [2 * iters_per_inner_epoch], ...; the
    iterations they span reach [max_iters] and exceed it by less than one
    inner epoch. *)
Theorem inner_epoch_count_ceil (w : W) :
  0 < max_iters self → 0 < iters_per_inner_epoch self →
  evaluate_only self = false →
  (run c self w).1 = Ok () →
  let n := length (inner_epochs (trace (run c self w).2)) in
  inner_epochs (trace (run c self w).2)
  = (λ k : nat, Z.of_nat k * iters_per_inner_epoch self) <$> seq 0 n ∧
  Z.of_nat n
  = (max_iters self + iters_per_inner_epoch self - 1)
    / iters_per_inner_epoch self ∧
  max_iters self ≤ Z.of_nat n * iters_per_inner_epoch self
  < max_iters self + iters_per_inner_epoch self.
Proof.
  intros Hmax Hstep Hmode Hok n. subst n.
  destruct (range_positive _ _ Hmax Hstep) as [starts Hrange].
  destruct (inner_epochs_training c self w _ Hmode Hrange Hok) as (-> & _).
  pose proof (range_length _ _ _ Hrange) as Hlen.
  rewrite Hlen.
  assert (0 ≤ (max_iters self + iters_per_inner_epoch self - 1)
              / iters_per_inner_epoch self) by (apply Z.div_pos; lia).
  rewrite range_len_ceil by done. split; [|split; [lia|]].
  - unfold range in Hrange. rewrite (proj2 (Z.eqb_neq _ 0)) in Hrange by lia.
    injection Hrange as <-. by rewrite range_len_ceil.
  - rewrite Z2Nat.id by done.
    pose proof (Z.mul_div_le (max_iters self + iters_per_inner_epoch self - 1)
                  _ Hstep).
    pose proof (Z.mul_succ_div_gt
                  (max_iters self + iters_per_inner_epoch self - 1)
                  _ Hstep). lia.
Qed.

(** X9. For positive values, with [max_iters] below [2^53] (the range in
    which the truncation of the floating-point quotient that [max_epoch]
    computes is the integer quotient), [max_epoch] is
    [floor(max_iters / iters_per_inner_epoch)]; a run that is not
    evaluate-only and completes executes exactly [max_epoch] inner epochs
    when [iters_per_inner_epoch] divides [max_iters], and [max_epoch + 1]
    otherwise. *)
Theorem max_epoch_and_inner_epochs (w : W) :
  0 < max_iters self < 2 ^ 53 → 0 < iters_per_inner_epoch self →
  evaluate_only self = false →
  (run c self w).1 = Ok () →
  let n := Z.of_nat (length (inner_epochs (trace (run c self w).2))) in
  max_epoch self = max_iters self / iters_per_inner_epoch self ∧
  (max_iters self `mod` iters_per_inner_epoch self = 0 →
   n = max_epoch self) ∧
  (max_iters self `mod` iters_per_inner_epoch self ≠ 0 →
   n = max_epoch self + 1).
Proof.
  intros [Hmax _] Hstep Hmode Hok n. subst n.
  destruct (range_positive _ _ Hmax Hstep) as [starts Hrange].
  destruct (inner_epochs_training c self w _ Hmode Hrange Hok) as (-> & _).
  rewrite (range_length _ _ _ Hrange), range_len_ceil by done.
  assert (0 ≤ (max_iters self + iters_per_inner_epoch self - 1)
              / iters_per_inner_epoch self) by (apply Z.div_pos; lia).
  rewrite Z2Nat.id by done.
  unfold max_epoch. rewrite Z.quot_div_nonneg by lia.
  pose proof (Z.div_mod (max_iters self) (iters_per_inner_epoch self)) as Hdm.
  pose proof (Z.mod_pos_bound (max_iters self) _ Hstep) as Hr.
  split; [done|]. split; intros Hmod.
  - symmetry. apply (Z.div_unique _ _ _ (iters_per_inner_epoch self - 1)); lia.
  - symmetry.
    apply (Z.div_unique _ _ _
             (max_iters self `mod` iters_per_inner_epoch self - 1)); lia.
Qed.

(** ** Progress labels *)

Lemma pretty_N_char_no_underscore (d : N) : pretty_N_char d ≠ "_"%char.
Proof. unfold pretty_N_char. by repeat case_match. Qed.

Lemma pretty_N_go_no_underscore (x : N) (s : string) :
  no_underscore s → no_underscore (pretty_N_go x s).
Proof.
  revert s. induction (N.lt_wf_0 x) as [x _ IH]; intros s Hs.
  destruct (decide (x = 0)%N) as [->|Hx]; [by rewrite pretty_N_go_0|].
  rewrite pretty_N_go_step by lia. apply IH.
  - apply N.div_lt; lia.
  - split; [apply pretty_N_char_no_underscore|done].
Qed.

Lemma pretty_N_no_underscore (x : N) : no_underscore (pretty x).
Proof.
  unfold pretty, pretty_N. case_decide; [done|].
  by apply pretty_N_go_no_underscore.
Qed.

Lemma pretty_Z_no_underscore (z : Z) : no_underscore (pretty z).
Proof.
  destruct z as [|p|p]; unfold pretty, pretty_Z.
  - done.
  - apply pretty_N_no_underscore.
  - split; [done|]. apply pretty_N_no_underscore.
Qed.

Lemma underscore_split (t1 t2 r1 r2 : string) :
  no_underscore t1 → no_underscore t2 →
  t1 +:+ String "_" r1 = t2 +:+ String "_" r2 → t1 = t2 ∧ r1 = r2.
Proof.
  revert t2. induction t1 as [|a t1 IH]; intros [|b t2] H1 H2 Heq;
    simpl in *.
  - by injection Heq as ->.
  - injection Heq as <- _. by destruct H2.
  - injection Heq as -> _. by destruct H1.
  - injection Heq as -> Heq. destruct H1 as [_ H1], H2 as [_ H2].
    destruct (IH _ H1 H2 Heq) as [-> ->]. done.
Qed.

(** X10. The label [_progress] builds determines both the epoch of the
    train loader and the iteration count: two calls return the same string
    only when [cur_epoch] and [cur_iters] agree. *)
Theorem progress_injective (i1 i2 : Z) s1 s2 :
  (_progress c i1 s1).1 = (_progress c i2 s2).1 →
  (cur_epoch c s1).1 = (cur_epoch c s2).1 ∧ i1 = i2.
Proof.
  unfold _progress, cur_epoch, gets, mbind, M_bind, bind, mret, M_ret, ret.
  simpl. intros [= Heq].
  change ("_iters=" +:+ ?x) with (String "_" ("iters=" +:+ x)) in Heq.
  apply underscore_split in Heq as [He Hi];
    [|apply pretty_Z_no_underscore..].
  apply (inj pretty) in He. apply (inj (String.append _)) in Hi.
  apply (inj pretty) in Hi. by rewrite He, Hi.
Qed.

(** ** Invariants of the whole state *)

Section StateInvariant.

Variable I : @state W MS OS CD → Prop.

Hypothesis I_emit :
  ∀ s ev, outer_event ev → I s →
    I {| world := world s; best_agg_metric := best_agg_metric s;
         best_iters := best_iters s; trace := trace s ++ [ev] |}.
Hypothesis I_world :
  ∀ s w, I s →
    I {| world := w; best_agg_metric := best_agg_metric s;
         best_iters := best_iters s; trace := trace s |}.
Hypothesis I_validate :
  ∀ end_iters split_name,
    preserves I (validate_split c self end_iters split_name).

Lemma preserves_ret {A} (a : A) : preserves I (mret a : M A).
Proof. by intros s Hs. Qed.

Lemma preserves_bind {A B} (m : M A) (f : A → M B) :
  preserves I m → (∀ a, preserves I (f a)) → preserves I (m ≫= f).
Proof.
  intros Hm Hf s Hs. rewrite bind_run. specialize (Hm s Hs).
  destruct (m s) as [[a|e] s']; simpl in *; [by apply Hf|done].
Qed.

Lemma preserves_gets {A} (f : @state W MS OS CD → A) : preserves I (gets f).
Proof. by intros s Hs. Qed.

Lemma preserves_set_world (w : W) : preserves I (set_world w).
Proof. intros s Hs. by apply I_world. Qed.

Lemma preserves_emit ev : outer_event ev → preserves I (emit ev : M unit).
Proof. intros Hev s Hs. by apply I_emit. Qed.

Lemma preserves_when (b : bool) (m : M unit) :
  preserves I m → preserves I (when b m).
Proof. intros Hm. destruct b; [done|apply (preserves_ret ())]. Qed.

Lemma preserves_for_each {A} (l : list A) (body : A → M unit) :
  (∀ x, preserves I (body x)) → preserves I (for_each l body).
Proof.
  intros Hbody. induction l as [|x l IH]; simpl.
  - apply (preserves_ret ()).
  - by apply preserves_bind.
Qed.

Lemma preserves_for_break {A} (l : list A) (body : A → M bool) :
  (∀ x, preserves I (body x)) → preserves I (for_break l body).
Proof.
  intros Hbody. induction l as [|x l IH]; simpl.
  - apply (preserves_ret ()).
  - apply preserves_bind; [done|]. intros [|]; [apply (preserves_ret ())|done].
Qed.

Lemma preserves_inner_epoch start_iters :
  preserves I (inner_epoch c self start_iters).
Proof.
  unfold inner_epoch, training_phase, evaluation_phase.
  apply preserves_bind; [by apply preserves_emit|intros _].
  apply preserves_bind; [|intros _; apply preserves_bind; [|intros _]].
  - apply preserves_when. unfold cur_epoch.
    apply preserves_bind; [apply preserves_gets|intros e].
    apply preserves_bind; [|intros stats; by apply preserves_emit].
    unfold train_iters.
    apply preserves_bind; [apply preserves_gets|intros w].
    apply preserves_bind; [apply preserves_set_world|intros _].
    apply preserves_bind; [by apply preserves_emit|intros _].
    apply preserves_bind; [apply preserves_gets|intros w'].
    destruct (task_train_iters _ _ _ _ _) as [stats w''].
    apply preserves_bind; [apply preserves_set_world|intros _].
    apply preserves_ret.
  - destruct (0 <? _)%nat.
    + apply preserves_for_each. intros x. apply I_validate.
    + apply preserves_when.
      unfold save_checkpoint, main_process, save_checkpoint_body.
      apply preserves_bind; [by apply preserves_emit|intros _].
      destruct (is_main_process c); [|apply preserves_ret].
      apply preserves_bind; [apply preserves_gets|intros obj].
      by apply preserves_emit.
  - destruct (evaluate_only self); [apply preserves_ret|].
    apply preserves_bind; [by apply preserves_emit|intros _].
    apply preserves_ret.
Qed.

Lemma run_preserves (w : W) : I (initial_state w) → I (run c self w).2.
Proof.
  intros Hinit. unfold run.
  assert (preserves I (train c self)) as Hm; [|by apply Hm].
  unfold train, testing_phase, cur_epoch. apply preserves_bind.
  - by intros s Hs.
  - intros starts.
    apply preserves_bind;
      [apply preserves_for_break, preserves_inner_epoch|intros _].
    apply preserves_bind; [apply preserves_gets|intros e].
    apply preserves_bind; [apply preserves_gets|intros w'].
    apply preserves_bind; [apply preserves_set_world|intros _].
    by apply preserves_emit.
Qed.

End StateInvariant.

(** ** The best record *)

Lemma best_pairs_quiet tr (blk : list (@event MS OS CD)) :
  Forall not_set_best blk → best_pairs (tr ++ blk) = best_pairs tr.
Proof.
  intros Hblk. unfold best_pairs. rewrite omap_app.
  rewrite <- (app_nil_r (omap _ tr)) at 2. f_equal.
  induction Hblk as [|ev blk Hev _ IH]; [done|]. simpl. by destruct ev.
Qed.

Lemma best_pair_run (w : W) :
  (best_iters (run c self w).2, best_agg_metric (run c self w).2)
  = current_best_pair (trace (run c self w).2).
Proof.
  apply (run_preserves
           (λ s, (best_iters s, best_agg_metric s)
                 = current_best_pair (trace s))); [| | |done].
  - intros s ev Hev Hs. simpl. unfold current_best_pair.
    rewrite best_pairs_quiet; [done|].
    apply Forall_singleton. by destruct ev.
  - by intros s w' Hs.
  - intros ei sp s Hs.
    destruct (validate_split_cases c self ei sp s); simpl;
      unfold current_best_pair in *.
    + rewrite best_pairs_quiet; [done|by repeat constructor].
    + rewrite best_pairs_quiet; [done|by repeat constructor].
    + unfold best_pairs. rewrite omap_app. simpl. by rewrite last_snoc.
    + rewrite best_pairs_quiet; [done|by repeat constructor].
Qed.

Lemma Jsaved_run (w : W) :
  Jsaved (trace (run c self w).2) (best_agg_metric (run c self w).2).
Proof.
  assert (Jpost Jsaved (λ _, Jsaved) (run c self w).1 (run c self w).2)
    as Hpost.
  { apply train_invariant.
    - intros ev tr b Hev Htr pre i m post Heq.
      apply snoc_eq_split in Heq as [[post1 [-> ->]]|(_ & <- & _)]; [|done].
      destruct (Htr _ _ _ _ eq_refl) as [post' ->]. by eexists.
    - intros ei sp s Hs. unfold Iok in Hs.
      assert (∀ blk : list (@event MS OS CD),
                Forall not_set_best blk →
                Jsaved (trace s ++ blk) (best_agg_metric s)) as Hquiet.
      { intros blk Hblk pre i m post Heq.
        apply app_eq_split in Heq as [[post1 [Htr ->]]|[pre2 [-> Hblk']]].
        - destruct (Hs _ _ _ _ Htr) as [post' ->]. by eexists.
        - rewrite Hblk' in Hblk. apply Forall_app in Hblk as [_ Hblk].
          by apply Forall_cons in Hblk as [? _]. }
      destruct (validate_split_cases c self ei sp s); unfold Jpost, Iok;
        simpl; try (apply Hquiet; by repeat constructor).
      intros pre i m post Heq.
      apply app_eq_split in Heq as [[post1 [Htr ->]]|[pre2 [-> Hblk']]].
      + destruct (Hs _ _ _ _ Htr) as [post' ->]. by eexists.
      + destruct pre2 as [|? [|? [|? [|? [|? [|? ?]]]]]]; simplify_eq/=.
        by eexists.
    - done.
    - intros [|??] ???; by intros [=]. }
  by destruct (run c self w).1.
Qed.

(** X11. When [train] ends, normally or not, [best_iters] and
    [best_agg_metric] hold the iteration count and the metric of the last
    best checkpoint saved, or 0 and 0 when none was saved; and every
    assignment of that record is directly followed by the call
    [save_checkpoint(best_iters, is_best=True)]. *)
Theorem best_record_matches_best_checkpoint (w : W) :
  let s' := (run c self w).2 in
  (best_iters s', best_agg_metric s') = current_best_pair (trace s') ∧
  (best_pairs (trace s') = [] → best_iters s' = 0 ∧ best_agg_metric s' = 0) ∧
  (∀ pre i m post, trace s' = pre ++ EvSetBest i m :: post →
     ∃ post', post = EvSaveCheckpoint i true :: post') ∧
  (∀ pre i m, trace s' = pre ++ [EvSetBest i m] → False).
Proof.
  pose proof (best_pair_run w) as Hpair. pose proof (Jsaved_run w) as Hsaved.
  cbv zeta. split; [done|]. split; [|split].
  - intros Hnone. unfold current_best_pair in Hpair.
    rewrite Hnone in Hpair. simpl in Hpair. by simplify_eq.
  - intros pre i m post Heq. by eapply Hsaved.
  - intros pre i m Heq. destruct (Hsaved _ _ _ _ Heq) as [post' Hnil]. done.
Qed.

(** ** Evaluate-only runs *)

(** X12. In evaluate-only mode a run of [train], completed or not, enters
    at most one inner epoch, never calls [train_iters], never waits at the
    barrier and never calls [save_checkpoint(..., is_best=False)]. *)
Theorem evaluate_only_never_trains (w : W) :
  evaluate_only self = true →
  (length (inner_epochs (trace (run c self w).2)) ≤ 1)%nat ∧
  Forall (λ ev, match ev with
                | EvSaveCheckpoint _ false | EvTrainIters _ _ _
                | EvBarrier => False
                | _ => True
                end) (trace (run c self w).2).
Proof.
  intros Hmode. exact (evaluate_only_single_pass c self w Hmode).
Qed.

End Coverage.

(** ** Construction followed by training *)


(** * Pipeline data loaders *)

Section PipelineProofs.

Context {D : Type}.

Implicit Types (cfg : LoaderConfig) (ds : gmap string D).

(** X14. [create_pipeline_loader] stops at the shortest of its three
    arguments: it returns as many loaders as the shortest has elements, and
    its loader number [i] is built from the elements number [i] of the
    three lists, with [pin_memory=True]. *)
Theorem create_pipeline_loader_zip (datasets : list D)
    (batch_sizes nums_workers : list Z) :
  length (create_pipeline_loader datasets batch_sizes nums_workers)
  = (length datasets `min` (length batch_sizes `min` length nums_workers))%nat ∧
  ∀ (i : nat) (loader : DataLoader),
    create_pipeline_loader datasets batch_sizes nums_workers !! i
    = Some loader ↔
    ∃ d b n, datasets !! i = Some d ∧ batch_sizes !! i = Some b ∧
             nums_workers !! i = Some n ∧
             loader = {| dataset := d; batch_size := b; num_workers := n;
                         pin_memory := true |}.
Proof.
  revert batch_sizes nums_workers.
  assert (∀ (ds : list D) (bs ns : list Z),
            ds = [] ∨ bs = [] ∨ ns = [] →
            ∀ (i : nat) (loader : DataLoader),
              [] !! i = Some loader ↔
              ∃ d b n, ds !! i = Some d ∧ bs !! i = Some b ∧
                       ns !! i = Some n ∧
                       loader = {| dataset := d; batch_size := b;
                                   num_workers := n; pin_memory := true |})
    as Hnil.
  { intros ds bs ns Hempty i loader. rewrite lookup_nil. split; [done|].
    intros (d & b & n & Hd & Hb & Hn & _).
    destruct Hempty as [->|[->| ->]]; by rewrite lookup_nil in *. }
  induction datasets as [|d datasets IH]; intros [|b bs] [|n ns]; simpl;
    try (split; [lia|apply Hnil; auto]).
  destruct (IH bs ns) as [Hlen Hlookup]. split; [lia|].
  intros [|i] loader; simpl.
  - split.
    + intros [= <-]. by eexists _, _, _.
    + by intros (?&?&?&[= <-]&[= <-]&[= <-]&->).
  - apply Hlookup.
Qed.

(** The loader of a split. *)
Lemma build_dataloaders_omap cfg ds (names : list string) :
  Forall (λ split, is_Some (ds !! split)) names →
  let loader_of split d :=
    {| dataset := d;
       batch_size := if bool_decide (split = "train")
                     then batch_size_train cfg else batch_size_eval cfg;
       num_workers := cfg_num_workers cfg;
       pin_memory := true |} in
  let datasets' := omap (λ split, ds !! split) names in
  zip names
    (create_pipeline_loader datasets'
       ((λ split : string,
           if bool_decide (split = "train") then batch_size_train cfg
           else batch_size_eval cfg) <$> names)
       (replicate (length datasets') (cfg_num_workers cfg)))
  = omap (λ split, d ← ds !! split; Some (split, loader_of split d)) names.
Proof.
  intros Hnames. cbv zeta.
  induction Hnames as [|split names [d Hd] _ IH]; [done|].
  simpl. rewrite Hd. simpl. f_equal. exact IH.
Qed.

Lemma sorted_split_names_elem ds (split : string) :
  split ∈ sorted_split_names ds ↔ is_Some (ds !! split).
Proof.
  unfold sorted_split_names. rewrite merge_sort_Permutation.
  rewrite list_elem_of_fmap. split.
  - intros ([k d] & -> & Hin%elem_of_map_to_list). by eexists.
  - intros [d Hd]. exists (split, d). split; [done|].
    by apply elem_of_map_to_list.
Qed.

(** X15. The dictionary [dataloaders] builds for pipeline data has the
    split names of [self.datasets] as keys, each once and in sorted order,
    and maps every split to the loader of that split's own dataset, with
    [batch_size_train] for the split ["train"] and [batch_size_eval] for
    every other split, the configured number of workers and
    [pin_memory=True]. *)
Theorem build_dataloaders_spec cfg ds :
  let result := build_dataloaders cfg ds in
  result.*1 = sorted_split_names ds ∧
  Sorted String.le result.*1 ∧
  NoDup result.*1 ∧
  (∀ split, split ∈ result.*1 ↔ is_Some (ds !! split)) ∧
  ∀ split loader,
    (split, loader) ∈ result ↔
    ∃ d, ds !! split = Some d ∧
         loader = {| dataset := d;
                     batch_size := if bool_decide (split = "train")
                                   then batch_size_train cfg
                                   else batch_size_eval cfg;
                     num_workers := cfg_num_workers cfg;
                     pin_memory := true |}.
Proof.
  intros result.
  assert (Forall (λ split, is_Some (ds !! split)) (sorted_split_names ds))
    as Hall.
  { apply Forall_forall. intros split. by apply sorted_split_names_elem. }
  assert (result
          = omap (λ split,
                    d ← ds !! split;
                    Some (split,
                          {| dataset := d;
                             batch_size := if bool_decide (split = "train")
                                           then batch_size_train cfg
                                           else batch_size_eval cfg;
                             num_workers := cfg_num_workers cfg;
                             pin_memory := true |}))
              (sorted_split_names ds)) as Hresult.
  { subst result. unfold build_dataloaders. cbv zeta.
    by rewrite (build_dataloaders_omap cfg ds _ Hall). }
  assert (result.*1 = sorted_split_names ds) as Hkeys.
  { rewrite Hresult. clear Hresult.
    induction Hall as [|split names [d Hd] _ IH]; [done|].
    simpl. rewrite Hd. simpl. f_equal. exact IH. }
  split; [done|]. rewrite Hkeys. split; [apply Sorted_merge_sort; apply _|].
  split.
  { unfold sorted_split_names. rewrite merge_sort_Permutation.
    apply NoDup_fst_map_to_list. }
  split; [apply sorted_split_names_elem|].
  intros split loader. rewrite Hresult, list_elem_of_omap. split.
  - intros (split' & Hin & Hsome).
    destruct (ds !! split') as [d|] eqn:Hd; simpl in Hsome; [|done].
    injection Hsome as -> <-. by exists d.
  - intros (d & Hd & ->). exists split.
    split; [apply sorted_split_names_elem; by eexists|]. by rewrite Hd.
Qed.


End PipelineProofs.

(** * Distributed runs *)

Lemma job_saved_paths_main_only {W MS OS CD : Type} (self : RunnerIter)
    (procs : list (@collaborators W MS OS CD * W)) (paths : list string) :
  Forall (λ p, saved_paths (trace (run p.1 self p.2).2)
               = if is_main_process p.1 then paths else []) procs →
  job_saved_paths self procs
  = concat (replicate (length (main_processes procs)) paths).
Proof.
  unfold job_saved_paths, main_processes.
  induction 1 as [|p procs Hp _ IH]; [done|].
  rewrite fmap_cons, filter_cons. simpl. rewrite Hp, IH.
  destruct (is_main_process p.1); by case_decide.
Qed.

(** C8. Without validation split and outside evaluate-only mode, every
    process of a job completes, runs one inner epoch per element of the
    range and, in each of them, makes exactly one call
    [save_checkpoint(end_iters, is_best=False)], labelled with the end
    iteration count of that inner epoch, and no call with [is_best=True];
    the main process writes the file [checkpoint_<end_iters>.pth] of each
    call and the other processes write nothing, so that a job with
    exactly one main process saves exactly one non-best checkpoint per
    inner epoch and no best checkpoint. *)
Theorem checkpoint_every_inner_epoch_without_splits {W MS OS CD : Type}
    (self : RunnerIter) (procs : list (@collaborators W MS OS CD * W))
    (starts : list Z) :
  valid_splits self = [] → evaluate_only self = false →
  range 0 (max_iters self) (iters_per_inner_epoch self) = Ok starts →
  let end_iters st := st + iters_per_inner_epoch self in
  Forall (λ p,
    let r := run p.1 self p.2 in
    r.1 = Ok () ∧
    inner_epochs (trace r.2) = starts ∧
    save_calls (trace r.2) = (λ st, (end_iters st, false)) <$> starts ∧
    saved_paths (trace r.2)
    = if is_main_process p.1
      then (λ st, checkpoint_path self (end_iters st) false) <$> starts
      else []) procs ∧
  (length (main_processes procs) = 1%nat →
   job_saved_paths self procs
   = (λ st, checkpoint_path self (end_iters st) false) <$> starts).
Proof.
  intros Hsplits Hmode Hrange end_iters.
  assert (Forall (λ p,
    let r := run p.1 self p.2 in
    r.1 = Ok () ∧
    inner_epochs (trace r.2) = starts ∧
    save_calls (trace r.2) = (λ st, (end_iters st, false)) <$> starts ∧
    saved_paths (trace r.2)
    = if is_main_process p.1
      then (λ st, checkpoint_path self (end_iters st) false) <$> starts
      else []) procs) as Hall.
  { apply Forall_forall. intros [c w] _. cbv zeta. simpl.
    destruct (no_splits_process c self w Hsplits Hmode)
      as (Hcalls & Hpaths & Hstarts).
    destruct (Hstarts _ Hrange) as [Hok Hepochs].
    rewrite Hepochs in Hcalls, Hpaths. done. }
  split; [done|]. intros Hone.
  rewrite (job_saved_paths_main_only self procs
             ((λ st, checkpoint_path self (end_iters st) false) <$> starts)).
  - rewrite Hone. simpl. by rewrite app_nil_r.
  - eapply Forall_impl; [exact Hall|]. by intros p (_ & _ & _ & ?).
Qed.

(** * Concrete runs *)

(** ** C1 *)

(** C1 fails as stated: on the main process, a first validation on ["val"]
    returns the aggregate metric -1, which strictly exceeds every metric
    seen before (there is none), and no checkpoint is saved as best; and on
    a process that is not the main process a first metric of 3 is not saved
    either. *)
Lemma best_checkpoint_needs_positive_metric :
  let run_of m main :=
    run (table_collaborators (λ _, Some (log_with m)) main)
      (example_runner false ["val"] 1 1) 0%nat in
  let pre := [EvInnerEpoch 0; EvTrainIters 0 0 1; EvLogStats ∅ "train"] in
  (∃ post,
     trace (run_of (-1) true).2
     = pre ++ EvEvalEpoch "val" "0_iters=1" (Some (log_with (-1))) :: post ∧
     log_with (-1) !! "agg_metrics" = Some (-1) ∧
     Forall (λ x, x < -1) (val_metrics pre) ∧
     save_calls (trace (run_of (-1) true).2) = []) ∧
  (∃ post,
     trace (run_of 3 false).2
     = pre ++ EvEvalEpoch "val" "0_iters=1" (Some (log_with 3)) :: post ∧
     log_with 3 !! "agg_metrics" = Some 3 ∧
     Forall (λ x, x < 3) (val_metrics pre) ∧
     save_calls (trace (run_of 3 false).2) = []).
Proof.
  split; eexists; (split; [vm_compute; reflexivity|]); (split; [done|]);
    (split; [constructor|by vm_compute]).
Qed.

Lemma best_checkpoint_iff_witness :
  let c := table_collaborators (λ _, Some (log_with 3)) true in
  let tr := trace (run c (example_runner false ["val"] 1 1) 0%nat).2 in
  is_main_process c = true ∧
  ∀ pre progress val_log m post,
    tr = pre ++ EvEvalEpoch "val" progress (Some val_log) :: post →
    val_log !! "agg_metrics" = Some m →
    (0 < m ∧ Forall (λ x, x < m) (val_metrics pre)) ↔
    (∃ e post', post = EvSetBest e m :: EvSaveCheckpoint e true :: post').
Proof.
  split; [reflexivity|].
  exact (proj2 (best_checkpoint_iff
                  (table_collaborators (λ _, Some (log_with 3)) true)
                  (example_runner false ["val"] 1 1) 0%nat eq_refl)).
Defined.

(** ** C2 *)

(** C2 fails as stated: with [max_iters = 5] and
    [iters_per_inner_epoch = 2] a training run executes three inner epochs,
    not [floor(5 / 2) = 2]; and an evaluate-only run with [max_iters = 4]
    and [iters_per_inner_epoch = 2] executes one, not two. *)
Lemma inner_epoch_count_not_floor :
  let c := table_collaborators (λ _, None) true in
  let r1 := run c (example_runner false [] 5 2) 0%nat in
  let r2 := run c (example_runner true [] 4 2) 0%nat in
  (r1.1 = Ok () ∧ inner_epochs (trace r1.2) = [0; 2; 4] ∧
   5 / 2 = 2 ∧ max_epoch (example_runner false [] 5 2) = 2) ∧
  (r2.1 = Ok () ∧ inner_epochs (trace r2.2) = [0] ∧ 4 / 2 = 2).
Proof. vm_compute. done. Qed.

Lemma inner_epoch_count_witness :
  let c := table_collaborators (λ _, Some (log_with 3)) true in
  let r := example_runner false ["val"] 6 2 in
  (0 < max_iters r ∧ 0 < iters_per_inner_epoch r ∧
   evaluate_only r = false ∧ (iters_per_inner_epoch r | max_iters r) ∧
   (run c r 0%nat).1 = Ok ()) ∧
  Z.of_nat (length (inner_epochs (trace (run c r 0%nat).2))) = 6 / 2.
Proof.
  split.
  { split; [done|]. split; [done|]. split; [done|].
    split; [by exists 3|by vm_compute]. }
  apply (inner_epoch_count
           (table_collaborators (λ _, Some (log_with 3)) true)
           (example_runner false ["val"] 6 2) 0%nat);
    [reflexivity|reflexivity|reflexivity|by exists 3|vm_compute; reflexivity].
Defined.

(** ** C3 *)

(** C3: an evaluate-only run on the main process whose validation on
    ["val"] returns a positive aggregate metric calls
    [save_checkpoint(2, is_best=True)] and writes the best checkpoint. *)
Lemma evaluate_only_saves_best :
  let c := table_collaborators (λ _, Some (log_with 1)) true in
  let r := example_runner true ["val"] 4 2 in
  evaluate_only r = true ∧
  (run c r 0%nat).1 = Ok () ∧
  save_calls (trace (run c r 0%nat).2) = [(2, true)] ∧
  saved_paths (trace (run c r 0%nat).2) = ["out/checkpoint_best.pth"].
Proof. vm_compute. done. Qed.

(** ** C4 *)

(** C4 fails as stated: on a process that is not the main process a
    validation log without ["agg_metrics"] raises nothing; the run goes on
    with the next split and the next inner epoch and completes. *)
Lemma missing_agg_metrics_ignored_off_main :
  let c := table_collaborators (λ _, Some log_without) false in
  let r := run c (example_runner false ["val"; "test"] 2 1) 0%nat in
  r.1 = Ok () ∧
  log_without !! "agg_metrics" = None ∧
  ∃ pre progress post,
    trace r.2 = pre ++ EvEvalEpoch "val" progress (Some log_without) :: post ∧
    post = [EvEvalEpoch "test" "0_iters=1" (Some log_without); EvBarrier;
            EvInnerEpoch 1; EvTrainIters 0 1 1; EvLogStats ∅ "train";
            EvEvalEpoch "val" "0_iters=2" (Some log_without);
            EvEvalEpoch "test" "0_iters=2" (Some log_without); EvBarrier;
            EvEvaluate 0].
Proof.
  split; [by vm_compute|]. split; [done|].
  eexists [EvInnerEpoch 0; EvTrainIters 0 0 1; EvLogStats ∅ "train"],
    "0_iters=1", _.
  split; [|reflexivity]. vm_compute. reflexivity.
Qed.

Lemma missing_agg_metrics_is_fatal_witness :
  let c := table_collaborators (λ _, Some log_without) true in
  let r := run c (example_runner false ["val"; "test"] 2 1) 0%nat in
  is_main_process c = true ∧
  trace r.2
  = [EvInnerEpoch 0; EvTrainIters 0 0 1; EvLogStats ∅ "train"]
    ++ EvEvalEpoch "val" "0_iters=1" (Some log_without) :: [] ∧
  r.1 = Raise (AssertionError "No agg_metrics found in validation log.").
Proof.
  assert (trace (run (table_collaborators (λ _, Some log_without) true)
                   (example_runner false ["val"; "test"] 2 1) 0%nat).2
          = [EvInnerEpoch 0; EvTrainIters 0 0 1; EvLogStats ∅ "train"]
            ++ EvEvalEpoch "val" "0_iters=1" (Some log_without) :: [])
    as Htrace by (vm_compute; reflexivity).
  split; [reflexivity|]. split; [exact Htrace|].
  exact (proj2 (missing_agg_metrics_is_fatal
                  (table_collaborators (λ _, Some log_without) true)
                  (example_runner false ["val"; "test"] 2 1) 0%nat eq_refl
                  _ _ _ _ _ Htrace eq_refl)).
Defined.

(** ** C5 *)

(** C5 fails as stated: a training run of two inner epochs waits at the
    barrier twice, not once; the second wait follows the final inner
    epoch. *)
Lemma barrier_after_final_inner_epoch :
  let c := table_collaborators (λ _, None) true in
  let r := run c (example_runner false [] 2 1) 0%nat in
  r.1 = Ok () ∧
  length (inner_epochs (trace r.2)) = 2%nat ∧
  length (barriers (trace r.2)) = 2%nat ∧
  ∃ pre, trace r.2 = pre ++ [EvBarrier; EvEvaluate 0].
Proof.
  split; [by vm_compute|]. split; [by vm_compute|]. split; [by vm_compute|].
  eexists [_; _; _; _; _; _; _; _; _; _; _]. vm_compute. reflexivity.
Qed.

Lemma barrier_after_every_inner_epoch_witness :
  let c := table_collaborators (λ _, Some (log_with 3)) true in
  let r := example_runner false ["val"] 6 2 in
  let tr := trace (run c r 0%nat).2 in
  (evaluate_only r = false ∧ (run c r 0%nat).1 = Ok ()) ∧
  length (barriers tr) = length (inner_epochs tr) ∧
  (inner_epochs tr ≠ [] → ∃ pre e, tr = pre ++ [EvBarrier; EvEvaluate e]).
Proof.
  split; [by vm_compute|].
  apply (barrier_after_every_inner_epoch
           (table_collaborators (λ _, Some (log_with 3)) true)
           (example_runner false ["val"] 6 2) 0%nat);
    [reflexivity|vm_compute; reflexivity].
Defined.

(** ** C6 *)

Lemma best_agg_metric_monotone_witness :
  let c := table_collaborators
             (λ n, Some (log_with (match n with O => 2 | 1%nat => 1
                                   | _ => 5 end))) true in
  let s' := (run c (example_runner false ["val"] 3 1) 0%nat).2 in
  best_values (trace s') = [2; 5] ∧
  best_agg_metric s' = 5 ∧
  ∀ pre mid post, trace s' = pre ++ mid ++ post →
    current_best pre ≤ current_best (pre ++ mid).
Proof.
  split; [by vm_compute|]. split; [by vm_compute|].
  exact (proj2 (proj2 (best_agg_metric_monotone
    (table_collaborators
       (λ n, Some (log_with (match n with O => 2 | 1%nat => 1 | _ => 5 end)))
       true)
    (example_runner false ["val"] 3 1) 0%nat))).
Defined.

(** ** C7 *)

Lemma init_rejects_nonpositive_witness :
  let absent := example_base false [] in
  let zero :=
    {| config := {| run_cfg := {["max_iters" := 10;
                                 "iters_per_inner_epoch" := 0]} |};
       evaluate_only := false; valid_splits := []; output_dir := "out" |} in
  run_cfg (config absent) !! "max_iters" = None ∧
  (∃ msg, __init__ absent = Raise (AssertionError msg)) ∧
  (∃ msg, __init__ zero = Raise (AssertionError msg)).
Proof.
  split; [reflexivity|]. split.
  - apply (init_rejects_nonpositive (example_base false [])).
    left. vm_compute. discriminate.
  - apply (init_rejects_nonpositive
             {| config := {| run_cfg := {["max_iters" := 10;
                                          "iters_per_inner_epoch" := 0]} |};
                evaluate_only := false; valid_splits := [];
                output_dir := "out" |}).
    right. vm_compute. discriminate.
Defined.

(** ** C8 *)

Lemma checkpoint_every_inner_epoch_without_splits_witness :
  let r := example_runner false [] 5 2 in
  let procs := [(table_collaborators (λ _, None) false, 0%nat);
                (table_collaborators (λ _, None) true, 0%nat)] in
  (valid_splits r = [] ∧ evaluate_only r = false ∧
   range 0 (max_iters r) (iters_per_inner_epoch r) = Ok [0; 2; 4] ∧
   length (main_processes procs) = 1%nat) ∧
  job_saved_paths r procs
  = ["out/checkpoint_2.pth"; "out/checkpoint_4.pth"; "out/checkpoint_6.pth"].
Proof.
  split; [by vm_compute|].
  apply (proj2 (checkpoint_every_inner_epoch_without_splits
    (example_runner false [] 5 2)
    [(table_collaborators (λ _, None) false, 0%nat);
     (table_collaborators (λ _, None) true, 0%nat)]
    [0; 2; 4] eq_refl eq_refl eq_refl)).
  reflexivity.
Defined.

(** ** C9 *)

(** C9 fails as stated: on a process that is not the main process a call
    to [save_checkpoint] writes nothing. *)
Lemma save_checkpoint_off_main_writes_nothing :
  let c := table_collaborators (λ _, None) false in
  let r := example_runner false [] 5 2 in
  (save_checkpoint c r 2 false (initial_state 0%nat)).1 = Ok () ∧
  trace (save_checkpoint c r 2 false (initial_state 0%nat)).2
  = [EvSaveCheckpoint 2 false] ∧
  saved_paths (trace (save_checkpoint c r 2 true (initial_state 0%nat)).2)
  = [].
Proof. by vm_compute. Qed.

(** ** C10 *)

Lemma none_validation_is_skipped_witness :
  let c := table_collaborators
             (λ n, match n with O => None | _ => Some (log_with 3) end)
             true in
  let r := example_runner false ["val"; "test"] 1 1 in
  let s := initial_state 0%nat in
  ((_progress c 1 s).1 = Ok "0_iters=1" ∧
   eval_epoch c "val" "0_iters=1" (world s) = (None, 1%nat)) ∧
  validate_split c r 1 "val" s
  = (Ok (), {| world := 1%nat; best_agg_metric := 0; best_iters := 0;
               trace := [EvEvalEpoch "val" "0_iters=1" None] |}).
Proof.
  split; [by vm_compute|].
  exact (proj1 (none_validation_is_skipped
    (table_collaborators
       (λ n, match n with O => None | _ => Some (log_with 3) end) true)
    (example_runner false ["val"; "test"] 1 1) 1 "val" ["test"]
    (initial_state 0%nat) "0_iters=1" 1%nat eq_refl eq_refl)).
Defined.

(** ** Runs that illustrate the further properties *)

Lemma checkpoint_labels_are_epoch_ends_witness :
  let c := table_collaborators (λ _, Some (log_with 3)) true in
  let r := example_runner false ["val"] 4 2 in
  0 < iters_per_inner_epoch r ∧
  Forall (λ ev, match ev with
                | EvSaveCheckpoint i _ | EvSetBest i _ =>
                    ∃ k : nat,
                      i = (Z.of_nat k + 1) * iters_per_inner_epoch r ∧
                      i - iters_per_inner_epoch r < max_iters r
                | _ => True
                end) (trace (run c r 0%nat).2).
Proof.
  split; [reflexivity|].
  apply (checkpoint_labels_are_epoch_ends
           (table_collaborators (λ _, Some (log_with 3)) true)
           (example_runner false ["val"] 4 2) 0%nat).
  reflexivity.
Defined.

Lemma only_best_checkpoint_with_splits_witness :
  let c := table_collaborators (λ _, Some (log_with 3)) true in
  let r := example_runner false ["val"] 4 2 in
  (valid_splits r ≠ [] ∧
   saved_paths (trace (run c r 0%nat).2) = ["out/checkpoint_best.pth"]) ∧
  Forall (λ ev, match ev with
                | EvSaveCheckpoint _ is_best => is_best = true
                | EvTorchSave _ save_to =>
                    save_to
                    = os_path_join (output_dir r) "checkpoint_best.pth"
                | _ => True
                end) (trace (run c r 0%nat).2).
Proof.
  split; [split; [discriminate|by vm_compute]|].
  apply (only_best_checkpoint_with_splits
           (table_collaborators (λ _, Some (log_with 3)) true)
           (example_runner false ["val"] 4 2) 0%nat).
  discriminate.
Defined.

Lemma streaming_loader_epoch_zero_witness :
  let c := table_collaborators (λ _, Some (log_with 3)) true in
  let r := example_runner false ["val"] 4 2 in
  (∀ w', train_loader_epoch c w' = None) ∧
  Forall (λ ev, match ev with
                | EvTrainIters e _ _ | EvEvaluate e => e = 0
                | EvEvalEpoch _ progress _ =>
                    ∃ start_iters,
                      start_iters ∈ epoch_starts r ∧
                      progress
                      = "0_iters="
                        +:+ pretty (start_iters + iters_per_inner_epoch r)
                | _ => True
                end) (trace (run c r 0%nat).2).
Proof.
  split; [reflexivity|].
  apply (streaming_loader_epoch_zero
           (table_collaborators (λ _, Some (log_with 3)) true)
           (example_runner false ["val"] 4 2) 0%nat).
  reflexivity.
Defined.



Lemma schedule_of_completed_run_witness :
  let c := table_collaborators (λ _, Some (log_with 3)) true in
  let r := example_runner false ["val"; "test"] 4 2 in
  (range 0 (max_iters r) (iters_per_inner_epoch r) = Ok [0; 2] ∧
   (run c r 0%nat).1 = Ok ()) ∧
  schedule (trace (run c r 0%nat).2)
  = concat (epoch_schedule r
              <$> (if evaluate_only r then take 1 [0; 2] else [0; 2]))
    ++ [CallEvaluate].
Proof.
  split; [split; vm_compute; reflexivity|].
  apply (schedule_of_completed_run
           (table_collaborators (λ _, Some (log_with 3)) true)
           (example_runner false ["val"; "test"] 4 2) 0%nat [0; 2]);
    vm_compute; reflexivity.
Defined.

Lemma inner_epoch_count_ceil_witness :
  let c := table_collaborators (λ _, None) true in
  let r := example_runner false [] 5 2 in
  (0 < max_iters r ∧ 0 < iters_per_inner_epoch r ∧
   evaluate_only r = false ∧ (run c r 0%nat).1 = Ok ()) ∧
  let n := length (inner_epochs (trace (run c r 0%nat).2)) in
  inner_epochs (trace (run c r 0%nat).2)
  = (λ k : nat, Z.of_nat k * iters_per_inner_epoch r) <$> seq 0 n ∧
  Z.of_nat n
  = (max_iters r + iters_per_inner_epoch r - 1) / iters_per_inner_epoch r ∧
  max_iters r ≤ Z.of_nat n * iters_per_inner_epoch r
  < max_iters r + iters_per_inner_epoch r.
Proof.
  split; [repeat split; vm_compute; reflexivity|].
  apply (inner_epoch_count_ceil
           (table_collaborators (λ _, None) true)
           (example_runner false [] 5 2) 0%nat);
    vm_compute; reflexivity.
Defined.

Lemma max_epoch_and_inner_epochs_witness :
  let c := table_collaborators (λ _, None) true in
  let r := example_runner false [] 5 2 in
  (0 < max_iters r < 2 ^ 53 ∧ 0 < iters_per_inner_epoch r ∧
   evaluate_only r = false ∧ (run c r 0%nat).1 = Ok ()) ∧
  let n := Z.of_nat (length (inner_epochs (trace (run c r 0%nat).2))) in
  max_epoch r = max_iters r / iters_per_inner_epoch r ∧
  (max_iters r `mod` iters_per_inner_epoch r = 0 → n = max_epoch r) ∧
  (max_iters r `mod` iters_per_inner_epoch r ≠ 0 → n = max_epoch r + 1).
Proof.
  split; [repeat split; vm_compute; reflexivity|].
  apply (max_epoch_and_inner_epochs
           (table_collaborators (λ _, None) true)
           (example_runner false [] 5 2) 0%nat);
    [split| | |]; vm_compute; reflexivity.
Defined.

Lemma progress_injective_witness :
  let c := table_collaborators (λ _, None) true in
  let s1 := initial_state 0%nat in
  let s2 := initial_state 7%nat in
  (_progress c 12 s1).1 = (_progress c 12 s2).1 ∧
  (cur_epoch c s1).1 = (cur_epoch c s2).1 ∧ 12 = 12.
Proof.
  split; [vm_compute; reflexivity|].
  apply (progress_injective (table_collaborators (λ _, None) true)
           12 12 (initial_state 0%nat) (initial_state 7%nat)).
  vm_compute. reflexivity.
Defined.

Lemma evaluate_only_never_trains_witness :
  let c := table_collaborators (λ _, Some (log_with 3)) true in
  let r := example_runner true ["val"] 4 2 in
  evaluate_only r = true ∧
  (length (inner_epochs (trace (run c r 0%nat).2)) ≤ 1)%nat ∧
  Forall (λ ev, match ev with
                | EvSaveCheckpoint _ false | EvTrainIters _ _ _
                | EvBarrier => False
                | _ => True
                end) (trace (run c r 0%nat).2).
Proof.
  split; [reflexivity|].
  apply (evaluate_only_never_trains
           (table_collaborators (λ _, Some (log_with 3)) true)
           (example_runner true ["val"] 4 2) 0%nat).
  reflexivity.
Defined.


Lemma best_record_matches_best_checkpoint_witness :
  let c := table_collaborators
             (λ n, Some (log_with (match n with O => 2 | 1%nat => 1
                                   | _ => 5 end))) true in
  let s' := (run c (example_runner false ["val"] 3 1) 0%nat).2 in
  (best_pairs (trace s') = [(1, 2); (3, 5)] ∧
   best_iters s' = 3 ∧ best_agg_metric s' = 5) ∧
  (best_iters s', best_agg_metric s') = current_best_pair (trace s') ∧
  (best_pairs (trace s') = [] → best_iters s' = 0 ∧ best_agg_metric s' = 0) ∧
  (∀ pre i m post, trace s' = pre ++ EvSetBest i m :: post →
     ∃ post', post = EvSaveCheckpoint i true :: post') ∧
  (∀ pre i m, trace s' = pre ++ [EvSetBest i m] → False).
Proof.
  split; [by vm_compute|].
  exact (best_record_matches_best_checkpoint
    (table_collaborators
       (λ n, Some (log_with (match n with O => 2 | 1%nat => 1 | _ => 5 end)))
       true)
    (example_runner false ["val"] 3 1) 0%nat).
Defined.

(** ** Pipeline data loaders *)

